(** * NeuroMechFly workshop notebooks: turning modulation and the oscillator network

    The notebooks drive a six-legged walking controller with a
    two-dimensional descending signal.  This development embeds

    - the per-step update of the CPG's intrinsic amplitudes and
      frequencies quoted in the fly-following notebook
      ([HybridTurningFly]),
    - the zig-zag descending signals, the ommatidia comparison
      figure and the following loop of the same notebook,
    - the renaming of the recorded joints ([format_seqikpy_data]) and
      the labels of the torque plot in the kinematic-replay notebook,
    - the coupled-oscillator network that the notebooks configure and
      call ([CPGNetwork]); its class body is not part of the notebooks,
      so its operations follow the design document.

    Numbers: numpy's float64 arrays are embedded as lists of exact
    rationals [Q], and rounding is not modelled, with one exception:
    the values of the zig-zag signals are computed in binary64
    ([PrimFloat]), because the left signal is a rounded difference. *)

From Stdlib Require Import PrimFloat.
From Stdlib Require FloatOps SpecFloat.
From Stdlib Require Import String Ascii DecimalString.
From Stdlib Require Import QArith Qabs Qround Qminmax Qpower Lqa.
From Stdlib Require Import ZArith Lia List Bool.
Import ListNotations.

#[local] Set Warnings "-inexact-float".

Local Open Scope Q_scope.

(** ** Exceptions and results *)

Inductive Error : Set :=
| IndexError
| ValueError
| ConfigurationError
| InvalidStateError.

Inductive Result (A : Type) : Type :=
| Ok (a : A)
| Raise (e : Error).

Arguments Ok {A} a.
Arguments Raise {A} e.

Definition bind {A B : Type} (r : Result A) (k : A -> Result B) : Result B :=
  match r with
  | Ok a => k a
  | Raise e => Raise e
  end.

Notation "x <- r ;; k" := (bind r (fun x => k))
  (at level 61, r at next level, right associativity).

(** Python's [a[i]] on a one-dimensional array. *)
Definition getitem {A : Type} (a : list A) (i : nat) : Result A :=
  match nth_error a i with
  | Some x => Ok x
  | None => Raise IndexError
  end.

(** ** Array helpers *)

(** [x > y] on numbers, as a boolean. *)
Definition Qgtb (x y : Q) : bool := negb (Qle_bool x y).

(** [a[:k] *= c]: the first [k] entries are multiplied in place. *)
Definition imul_upto (k : nat) (c : Q) (a : list Q) : list Q :=
  map (fun x => x * c) (firstn k a) ++ skipn k a.

(** [a[k:] *= c]: the entries from index [k] on are multiplied in place. *)
Definition imul_from (k : nat) (c : Q) (a : list Q) : list Q :=
  firstn k a ++ map (fun x => x * c) (skipn k a).

(** [np.repeat(np.abs(action[:, np.newaxis]), 3, axis=1).ravel()]:
    every entry of [action] is replaced by three copies of its absolute
    value. *)
Definition repeat_abs (action : list Q) : list Q :=
  flat_map (fun d => repeat (Qabs d) 3) action.

(** [x % m] on numbers, for a positive modulus [m]: the remainder of
    the floored division, in [0, m). *)
Definition Qmod (x m : Q) : Q := x - m * inject_Z (Qfloor (x / m)).

(** [1 if d > 0 else -1]. *)
Definition direction (d : Q) : Q := if Qgtb d 0 then 1 else - (1).

(** ** The oscillator network object *)

(** The fields of [CPGNetwork] are the keyword arguments of its
    constructor call in [HybridTurningFly.__init__], followed by the
    oscillator state installed by [reset]. *)
Record CPGNetwork : Type := mkCPGNetwork {
  timestep : Q;
  intrinsic_freqs : list Q;
  intrinsic_amps : list Q;
  coupling_weights : list (list Q);
  phase_biases : list (list Q);
  convergence_coefs : list Q;
  seed : Z;
  phases : list Q;
  amplitudes : list Q
}.

Definition with_intrinsic_amps (amps : list Q) (n : CPGNetwork) : CPGNetwork :=
  mkCPGNetwork (timestep n) (intrinsic_freqs n) amps (coupling_weights n)
    (phase_biases n) (convergence_coefs n) (seed n) (phases n) (amplitudes n).

Definition with_intrinsic_freqs (freqs : list Q) (n : CPGNetwork) : CPGNetwork :=
  mkCPGNetwork (timestep n) freqs (intrinsic_amps n) (coupling_weights n)
    (phase_biases n) (convergence_coefs n) (seed n) (phases n) (amplitudes n).

Definition with_state (ph am : list Q) (n : CPGNetwork) : CPGNetwork :=
  mkCPGNetwork (timestep n) (intrinsic_freqs n) (intrinsic_amps n)
    (coupling_weights n) (phase_biases n) (convergence_coefs n) (seed n) ph am.

Definition with_seed (z : Z) (n : CPGNetwork) : CPGNetwork :=
  mkCPGNetwork (timestep n) (intrinsic_freqs n) (intrinsic_amps n)
    (coupling_weights n) (phase_biases n) (convergence_coefs n) z (phases n)
    (amplitudes n).

(** ** The turning fly *)

Module HybridTurningFly.

(** [fly_intrinsic_freqs] is the attribute [self.intrinsic_freqs] of
    the fly, [cpg_network] the attribute [self.cpg_network]. *)
Record t : Type := mk {
  fly_intrinsic_freqs : list Q;
  cpg_network : CPGNetwork
}.

(** The two lines computing [amps] and the three computing [freqs]. *)
Definition compute_intrinsic_overrides (self_intrinsic_freqs action : list Q)
  : Result (list Q * list Q) :=
  let amps := repeat_abs action in
  let freqs := self_intrinsic_freqs in
  a0 <- getitem action 0 ;;
  let freqs := imul_upto 3 (direction a0) freqs in
  a1 <- getitem action 1 ;;
  let freqs := imul_from 3 (direction a1) freqs in
  Ok (freqs, amps).

(** The whole update: the two attribute assignments follow the
    computation; an exception leaves the fly as it was. *)
Definition modulate (action : list Q) (self : t) : Result unit * t :=
  match compute_intrinsic_overrides (fly_intrinsic_freqs self) action with
  | Raise e => (Raise e, self)
  | Ok (freqs, amps) =>
      (Ok tt,
       mk (fly_intrinsic_freqs self)
          (with_intrinsic_freqs freqs
             (with_intrinsic_amps amps (cpg_network self))))
  end.

(** A run of control steps, one action per step. *)
Fixpoint modulate_all (actions : list (list Q)) (self : t) : Result unit * t :=
  match actions with
  | [] => (Ok tt, self)
  | action :: rest =>
      match modulate action self with
      | (Ok _, self') => modulate_all rest self'
      | (Raise e, self') => (Raise e, self')
      end
  end.

End HybridTurningFly.

(** ** The coupled-oscillator network *)

Definition Qsum (l : list Q) : Q := fold_right Qplus 0 l.

Definition all_nonneg (v : list Q) : bool := forallb (fun r => Qle_bool 0 r) v.

Definition all_pos (v : list Q) : bool := forallb (fun r => Qgtb r 0) v.

Definition square (n : nat) (m : list (list Q)) : bool :=
  Nat.eqb (length m) n && forallb (fun row => Nat.eqb (length row) n) m.

Module CPG.

(** Modelled from the spec: the number N of oscillators; the class
    body of [CPGNetwork] is not in the notebooks.  N is the dimension
    of the coupling matrix, which is fixed at construction. *)
Definition num_oscillators (n : CPGNetwork) : nat := length (coupling_weights n).

(** Modelled from the spec: construction of [CPGNetwork], which
    rejects mismatched dimensions and a non-positive timestep or
    convergence rate with [ConfigurationError].  The oscillator state
    is empty until [reset] installs one. *)
Definition init (timestep : Q) (intrinsic_freqs intrinsic_amps : list Q)
    (coupling_weights phase_biases : list (list Q))
    (convergence_coefs : list Q) (seed : Z) : Result CPGNetwork :=
  let N := length intrinsic_freqs in
  if Qgtb timestep 0
     && Nat.eqb (length intrinsic_amps) N
     && square N coupling_weights
     && square N phase_biases
     && Nat.eqb (length convergence_coefs) N
     && all_pos convergence_coefs
  then Ok (mkCPGNetwork timestep intrinsic_freqs intrinsic_amps coupling_weights
             phase_biases convergence_coefs seed [] [])
  else Raise ConfigurationError.

(** Modelled from the spec: [reset(initial_phases, initial_amplitudes)],
    which fails with [InvalidStateError] if a vector length differs
    from N or an amplitude is negative, and otherwise sets the
    oscillator state. *)
Definition reset (initial_phases initial_amplitudes : list Q) (n : CPGNetwork)
  : Result unit * CPGNetwork :=
  if Nat.eqb (length initial_phases) (num_oscillators n)
     && Nat.eqb (length initial_amplitudes) (num_oscillators n)
     && all_nonneg initial_amplitudes
  then (Ok tt, with_state initial_phases initial_amplitudes n)
  else (Raise InvalidStateError, n).

(** Modelled from the spec: [get_state()]. *)
Definition get_state (n : CPGNetwork) : list Q * list Q := (phases n, amplitudes n).

(** Modelled from the spec: the setter of the intrinsic frequencies,
    which fails with [InvalidStateError] on a wrong length. *)
Definition set_intrinsic_freqs (freqs : list Q) (n : CPGNetwork)
  : Result unit * CPGNetwork :=
  if Nat.eqb (length freqs) (num_oscillators n)
  then (Ok tt, with_intrinsic_freqs freqs n)
  else (Raise InvalidStateError, n).

(** Modelled from the spec: the setter of the intrinsic amplitudes,
    which fails with [InvalidStateError] on a wrong length or a
    negative amplitude. *)
Definition set_intrinsic_amps (amps : list Q) (n : CPGNetwork)
  : Result unit * CPGNetwork :=
  if Nat.eqb (length amps) (num_oscillators n) && all_nonneg amps
  then (Ok tt, with_intrinsic_amps amps n)
  else (Raise InvalidStateError, n).

Section Dynamics.

(** The sine and the constant 2π are not rational; the dynamics are
    stated for any function [sin] and any positive period
    [two_pi]. *)
Variable sin : Q -> Q.
Variable two_pi : Q.

(** Modelled from the spec: the right-hand sides of the ODE
    [θ̇_i = 2π·ν_i + Σ_j r_j·w_ij·sin(θ_j − θ_i − φ_ij)] and
    [ṙ_i = α_i·(R_i − r_i)]; first the coupling of oscillator [j] into
    oscillator [i]. *)
Definition coupling (n : CPGNetwork) (i j : nat) : Q :=
  nth j (amplitudes n) 0
  * nth j (nth i (coupling_weights n) []) 0
  * sin (nth j (phases n) 0 - nth i (phases n) 0
         - nth j (nth i (phase_biases n) []) 0).

(** Modelled from the spec: the phase derivative of oscillator [i]. *)
Definition dtheta (n : CPGNetwork) (i : nat) : Q :=
  two_pi * nth i (intrinsic_freqs n) 0
  + Qsum (map (coupling n i) (seq 0 (num_oscillators n))).

(** Modelled from the spec: the amplitude derivative of oscillator [i]. *)
Definition dr (n : CPGNetwork) (i : nat) : Q :=
  nth i (convergence_coefs n) 0
  * (nth i (intrinsic_amps n) 0 - nth i (amplitudes n) 0).

(** Modelled from the spec: [step()], one forward-Euler step of
    length Δt, after which phases are wrapped into [0, 2π) (modular
    arithmetic) and amplitudes are clamped at 0. *)
Definition step (n : CPGNetwork) : CPGNetwork :=
  let N := num_oscillators n in
  let ph := map (fun i => Qmod (nth i (phases n) 0 + timestep n * dtheta n i) two_pi)
                (seq 0 N) in
  let am := map (fun i => Qmax 0 (nth i (amplitudes n) 0 + timestep n * dr n i))
                (seq 0 N) in
  with_state ph am n.

(** Modelled from the spec: one control step (section 2, control
    flow): the steering command gives the intrinsic parameters,
    they are written into the network, the network integrates one
    timestep and exposes its state.  The overrides are those of the
    notebook's snippet, assigned in its order. *)
Definition control_step (action : list Q) (self : HybridTurningFly.t)
  : Result (list Q * list Q) * HybridTurningFly.t :=
  let base := HybridTurningFly.fly_intrinsic_freqs self in
  match HybridTurningFly.compute_intrinsic_overrides base action with
  | Raise e => (Raise e, self)
  | Ok (freqs, amps) =>
      match set_intrinsic_amps amps (HybridTurningFly.cpg_network self) with
      | (Raise e, n1) => (Raise e, HybridTurningFly.mk base n1)
      | (Ok _, n1) =>
          match set_intrinsic_freqs freqs n1 with
          | (Raise e, n2) => (Raise e, HybridTurningFly.mk base n2)
          | (Ok _, n2) =>
              let n3 := step n2 in
              (Ok (get_state n3), HybridTurningFly.mk base n3)
          end
      end
  end.

(** Modelled from the spec: the external driver loop, one steering
    command per step; the trajectory lists the state exposed after each
    step, up to the first failure. *)
Fixpoint run (actions : list (list Q)) (self : HybridTurningFly.t)
  : list (list Q * list Q) * (Result unit * HybridTurningFly.t) :=
  match actions with
  | [] => ([], (Ok tt, self))
  | action :: rest =>
      match control_step action self with
      | (Raise e, self') => ([], (Raise e, self'))
      | (Ok st, self') =>
          let (traj, final) := run rest self' in (st :: traj, final)
      end
  end.

End Dynamics.

(** Two networks of one configuration and state that differ at most
    in the seed. *)
Definition same_up_to_seed (n1 n2 : CPGNetwork) : Prop :=
  timestep n1 = timestep n2
  /\ intrinsic_freqs n1 = intrinsic_freqs n2
  /\ intrinsic_amps n1 = intrinsic_amps n2
  /\ coupling_weights n1 = coupling_weights n2
  /\ phase_biases n1 = phase_biases n2
  /\ convergence_coefs n1 = convergence_coefs n2
  /\ phases n1 = phases n2
  /\ amplitudes n1 = amplitudes n2.

(** The state invariant of the data model. *)
Definition phase_ok (two_pi : Q) (theta : Q) : Prop := 0 <= theta /\ theta < two_pi.
Definition state_ok (two_pi : Q) (n : CPGNetwork) : Prop :=
  length (phases n) = num_oscillators n
  /\ length (amplitudes n) = num_oscillators n
  /\ Forall (phase_ok two_pi) (phases n)
  /\ Forall (fun r => 0 <= r) (amplitudes n).

End CPG.

(** [HybridTurningFly.__init__]: the network is built from the
    configuration and reset to the initial phases and magnitudes. *)
Definition HybridTurningFly_init (timestep : Q) (intrinsic_freqs intrinsic_amps : list Q)
    (coupling_weights phase_biases : list (list Q)) (convergence_coefs : list Q)
    (init_phases init_magnitudes : list Q) (seed : Z) : Result HybridTurningFly.t :=
  net <- CPG.init timestep intrinsic_freqs intrinsic_amps coupling_weights
           phase_biases convergence_coefs seed ;;
  match CPG.reset init_phases init_magnitudes net with
  | (Raise e, _) => Raise e
  | (Ok _, net') => Ok (HybridTurningFly.mk intrinsic_freqs net')
  end.

(** ** The zig-zag demo *)

Module ZigZag.

(** [timestep = 1e-4]. *)
Definition timestep : Q := 1 # 10000.

(** [np.arange(start, stop, step)]. *)
Definition arange (start stop step : Q) : list Q :=
  map (fun i => start + inject_Z (Z.of_nat i) * step)
      (seq 0 (Z.to_nat (Qceiling ((stop - start) / step)))).

(** [t = np.arange(0, 1.2, timestep)]. *)
Definition t : list Q := arange 0 1.2 timestep.

(** One sample of [((t - 0.2) % 0.8 > 0.4) * 1.2 + 0.2]; the boolean
    is promoted to 1 or 0. *)
Definition right_at (x : Q) : Q :=
  (if Qgtb (Qmod (x - 0.2) 0.8) 0.4 then 1 else 0) * 1.2 + 0.2.

(** The comparison [(t - 0.2) % 0.8 > 0.4] of that sample, as in
    [right_at]: it is evaluated on the exact sample time.  What is
    proved of the values of the signals holds for either outcome. *)
Definition high (x : Q) : bool := Qgtb (Qmod (x - 0.2) 0.8) 0.4.

(** The arrays of the cell hold binary64 numbers.  One sample of
    [(...) * 1.2 + 0.2] in binary64, for the outcome [b] of the
    comparison: the boolean is promoted to 1.0 or 0.0, and the product
    and the sum are rounded. *)
Definition right_value (b : bool) : float :=
  ((if b then 1 else 0) * 1.2 + 0.2)%float.

(** One sample of [1.6 - right_descending_signal]: a binary64
    subtraction. *)
Definition left_of (r : float) : float := (1.6 - r)%float.

Definition right_descending_signal : list float := map (fun x => right_value (high x)) t.
Definition left_descending_signal : list float := map left_of right_descending_signal.

(** [np.column_stack([left_descending_signal, right_descending_signal])]. *)
Definition descending_signals : list (list float) :=
  map (fun lr => [fst lr; snd lr])
      (combine left_descending_signal right_descending_signal).

(** The rational number a finite binary64 number stands for (0 for the
    infinities and NaN, which the cell does not produce). *)
Definition float_to_Q (x : float) : Q :=
  match FloatOps.Prim2SF x with
  | SpecFloat.S754_finite s m e =>
      let v := inject_Z (Zpos m) * 2 ^ e in
      if s then - v else v
  | _ => 0
  end.

(** A command as the turning update reads it: its operations ([abs],
    [> 0], a product with 1 or -1) are exact on binary64 numbers, so
    the update is run on the exact values of the entries. *)
Definition command_of (action : list float) : list Q := map float_to_Q action.

(** [np.zeros(n)]. *)
Definition zeros (n : nat) : list float := repeat 0%float n.

(** The dictionary passed to [sim.step] in the multi-fly loop:
    [{"Nuro": np.zeros(2), "McFly": action_mcfly}]. *)
Record actions : Type := mk_actions {
  Nuro : list Q;
  McFly : list Q
}.

(** The loop [for i, action_mcfly in enumerate(descending_signals)]:
    the dictionary of every step. *)
Definition multifly_actions : list actions :=
  map (fun action_mcfly => mk_actions (command_of (zeros 2)) (command_of action_mcfly))
      descending_signals.

End ZigZag.

(** ** The ommatidia comparison figure *)

Module Following.

Local Open Scope string_scope.

(** [threshold = 0.75]. *)
Definition threshold : Q := 0.75.

Definition Qltb (x y : Q) : bool := negb (Qle_bool y x).

(** [.max(axis=-1)] on one ommatidium's channels; numpy raises
    [ValueError] on an empty axis. *)
Definition max_channels (channels : list Q) : Result Q :=
  match channels with
  | [] => Raise ValueError
  | c :: cs => Ok (fold_left Qmax cs c)
  end.

Fixpoint traverse {A B : Type} (f : A -> Result B) (l : list A) : Result (list B) :=
  match l with
  | [] => Ok []
  | x :: xs => y <- f x ;; ys <- traverse f xs ;; Ok (y :: ys)
  end.

(** [vision.max(axis=-1)] on an array retinas × ommatidia × channels. *)
Definition max_last_axis (vision : list (list (list Q))) : Result (list (list Q)) :=
  traverse (traverse max_channels) vision.

(** [(row < threshold).sum()]. *)
Definition count_below (thr : Q) (row : list Q) : nat :=
  length (filter (fun x => Qltb x thr) row).

(** [int(b)]. *)
Definition int_of_bool (b : bool) : nat := if b then 1%nat else 0%nat.

(** [s[i]] on a string. *)
Definition str_getitem (s : string) (i : nat) : Result string :=
  match String.get i s with
  | Some c => Ok (String c EmptyString)
  | None => Raise IndexError
  end.

(** The decimal rendering of a count inside an f-string. *)
Definition str_of_nat (n : nat) : string := NilEmpty.string_of_uint (Nat.to_uint n).

(** The f-string passed to [fig.suptitle]; both comparisons are
    written [ommatidia_l > ommatidia_l] in the notebook. *)
Definition suptitle (ommatidia_l ommatidia_r : nat) : Result string :=
  cmp <- str_getitem "<>" (int_of_bool (Nat.ltb ommatidia_l ommatidia_l)) ;;
  turn <- str_getitem "RL" (int_of_bool (Nat.ltb ommatidia_l ommatidia_l)) ;;
  Ok ("L (" ++ str_of_nat ommatidia_l ++ ") " ++ cmp
      ++ " R (" ++ str_of_nat ommatidia_r ++ ") -> turn " ++ turn).

(** The cell, from the vision array of the observation to the title. *)
Definition comparison_title (vision : list (list (list Q))) : Result string :=
  ommatidia_readings <- max_last_axis vision ;;
  row_l <- getitem ommatidia_readings 0 ;;
  row_r <- getitem ommatidia_readings 1 ;;
  suptitle (count_below threshold row_l) (count_below threshold row_r).

(** The title the figure would show for given counts and a given
    outcome of the comparison. *)
Definition title_with (l r : nat) (cmp turn : string) : string :=
  "L (" ++ str_of_nat l ++ ") " ++ cmp ++ " R (" ++ str_of_nat r ++ ") -> turn " ++ turn.

End Following.

(** ** Body sides and the design document's mapping *)

(** Oscillators 0 to 2 drive the legs of the left side, 3 to 5 those of
    the right side. *)
Inductive Side : Set := Left | Right.

Definition side_of (i : nat) : Side := if Nat.ltb i 3 then Left else Right.

Definition side_slice {A : Type} (s : Side) (v : list A) : list A :=
  match s with
  | Left => firstn 3 v
  | Right => skipn 3 v
  end.

Definition steering (s : Side) (dl dr : Q) : Q :=
  match s with
  | Left => dl
  | Right => dr
  end.

(** The command whose entry for side [s] is [d] and whose other entry
    is [other]. *)
Definition command (s : Side) (d other : Q) : list Q :=
  match s with
  | Left => [d; other]
  | Right => [other; d]
  end.

Definition opposite (s : Side) : Side :=
  match s with
  | Left => Right
  | Right => Left
  end.

(** The frequency the design document prescribes for an oscillator of
    baseline frequency [nu] on a side with steering value [d]. *)
Definition spec_frequency (d nu : Q) : Q := if Qgtb d 0 then nu else - nu.

(** The binary64 number [l] is within 2^-52 of [v] without being [v]. *)
Definition rounded_near (l v : float) : Prop :=
  (l =? v)%float = false
  /\ Qabs (ZigZag.float_to_Q l - ZigZag.float_to_Q v) <= 2 ^ (-52).

(** What holds of one sample of the left and right signals, in
    binary64: the right one is 0.2 or 1.4; the left one is the rounded
    difference [1.6 - r], which is near 1.4 or 0.2 respectively but
    is neither; their rounded sum is 1.6; both are positive. *)
Definition zigzag_pair_ok (l r : float) : Prop :=
  (((r =? 0.2)%float = true /\ rounded_near l 1.4%float)
   \/ ((r =? 1.4)%float = true /\ rounded_near l 0.2%float))
  /\ l = (1.6 - r)%float
  /\ (l =? 0.2)%float = false /\ (l =? 1.4)%float = false
  /\ (l + r =? 1.6)%float = true
  /\ (0 <? l)%float = true /\ (0 <? r)%float = true.

(** Two flies with one baseline whose networks differ at most in the
    seed. *)
Definition same_fly_up_to_seed (f1 f2 : HybridTurningFly.t) : Prop :=
  HybridTurningFly.fly_intrinsic_freqs f1 = HybridTurningFly.fly_intrinsic_freqs f2
  /\ CPG.same_up_to_seed (HybridTurningFly.cpg_network f1) (HybridTurningFly.cpg_network f2).

(** The exposed state satisfies the invariant of the data model. *)
Definition exposed_ok (two_pi : Q) (st : list Q * list Q) : Prop :=
  Forall (CPG.phase_ok two_pi) (fst st) /\ Forall (fun r => 0 <= r) (snd st).

(** ** The convergence scenario *)

(** The setting of the scenario: six oscillators, a baseline of six
    frequencies, the timestep 1e-4 s and the convergence rate 20 /s on
    every oscillator. *)
Definition convergence_setup (self : HybridTurningFly.t) : Prop :=
  CPG.num_oscillators (HybridTurningFly.cpg_network self) = 6%nat
  /\ length (HybridTurningFly.fly_intrinsic_freqs self) = 6%nat
  /\ timestep (HybridTurningFly.cpg_network self) == 1 # 10000
  /\ length (convergence_coefs (HybridTurningFly.cpg_network self)) = 6%nat
  /\ Forall (fun a => a == 20) (convergence_coefs (HybridTurningFly.cpg_network self)).

(** Every amplitude of [v] is non-negative and within [c] of the target 1. *)
Definition amps_within (c : Q) (v : list Q) : Prop :=
  length v = 6%nat /\ Forall (fun r => 0 <= r /\ 1 - r <= c) v.

(** The intrinsic amplitudes the command [1, 1] writes. *)
Definition unit_amps : list Q := [Qabs 1; Qabs 1; Qabs 1; Qabs 1; Qabs 1; Qabs 1].

(** The network after the command [1, 1] has been written into it. *)
Definition forward_net (self : HybridTurningFly.t) : CPGNetwork :=
  with_intrinsic_freqs (HybridTurningFly.fly_intrinsic_freqs self)
    (with_intrinsic_amps unit_amps (HybridTurningFly.cpg_network self)).

(** ** A concrete configuration *)

Module Example.

Definition freqs : list Q := repeat 12 6.
Definition weights : list (list Q) :=
  map (fun i => map (fun j => if Nat.eqb i j then 0 else 10) (seq 0 6)) (seq 0 6).
Definition biases : list (list Q) :=
  map (fun i => map (fun j => (Z.of_nat j - Z.of_nat i) # 2) (seq 0 6)) (seq 0 6).
Definition rates : list Q := repeat 20 6.

(** A network whose oscillators have the baseline amplitude [a],
    after [reset] to phases and magnitudes 0. *)
Definition network (a : Q) : CPGNetwork :=
  mkCPGNetwork (1 # 10000) freqs (repeat a 6) weights biases rates 0
    (repeat 0 6) (repeat 0 6).

(** The fly around it; [fly 2] has the baseline amplitude 2 and
    [fly 1] the unit amplitude. *)
Definition fly (a : Q) : HybridTurningFly.t := HybridTurningFly.mk freqs (network a).

(** Two retinas of three ommatidia with two channels each: two dimmed
    ommatidia on the left, none on the right. *)
Definition vision : list (list (list Q)) :=
  [[[0.1; 0.2]; [0.3; 0.5]; [0.9; 1]]; [[1; 1]; [0.8; 0.9]; [1; 0.2]]].

End Example.

(** ** The following loop *)

Module Follower.

(** [decision_interval = 500]. *)
Definition decision_interval : nat := 500.

(** [(ommatidia_readings < 0.5).sum(-1)]: one count per retina. *)
Definition activated_ommatidia (ommatidia_readings : list (list Q)) : list nat :=
  map (Following.count_below 0.5) ommatidia_readings.

(** [l[-k:]] for a positive [k]: the last [k] entries, or all of [l]
    when it has fewer. *)
Definition last_n {A : Type} (k : nat) (l : list A) : list A :=
  skipn (length l - k) l.

Definition count_true (l : list bool) : nat := length (filter (fun b => b) l).

(** [np.mean] of a list of booleans. *)
Definition mean (l : list bool) : Q :=
  inject_Z (Z.of_nat (count_true l)) / inject_Z (Z.of_nat (length l)).

(** The variables the loop carries from one iteration to the next. *)
Record state : Type := mk {
  is_left : list bool;
  action_nuro : list Q
}.

(** The body of the loop up to the call of [sim.step]: the frame is
    classified and appended to [is_left], and on a positive multiple of
    [decision_interval] the command is chosen anew. *)
Definition decide (i : nat) (vision : list (list (list Q))) (st : state) : Result state :=
  ommatidia_readings <- Following.max_last_axis vision ;;
  let activated_ommatidia := activated_ommatidia ommatidia_readings in
  a0 <- getitem activated_ommatidia 0 ;;
  a1 <- getitem activated_ommatidia 1 ;;
  let is_left := is_left st ++ [Nat.ltb a1 a0] in
  let action_nuro :=
    if Nat.ltb 0 i && Nat.eqb (i mod decision_interval) 0
    then if Qgtb (mean (last_n decision_interval is_left)) 0.5
         then [0.2; 1.4]
         else [1.4; 0.2]
    else action_nuro st in
  Ok (mk is_left action_nuro).

Section Loop.

(** The simulation is external: [sim_step sim action_nuro action_mcfly]
    stands for [sim.step] with the two commands and gives Nuro's next
    vision observation and the next simulation state. *)
Variable Sim : Type.
Variable sim_step : Sim -> list Q -> list Q -> list (list (list Q)) * Sim.

(** The loop from iteration [i] on; the result lists the commands
    passed for Nuro, the observations appended to [obs_hist] and the
    final variables. *)
Fixpoint follow (i : nat) (signals : list (list Q)) (obs : list (list (list Q)))
    (sim : Sim) (st : state)
  : Result (list (list Q) * list (list (list (list Q))) * state) :=
  match signals with
  | [] => Ok ([], [], st)
  | action_mcfly :: rest =>
      st' <- decide i obs st ;;
      let (obs', sim') := sim_step sim (action_nuro st') action_mcfly in
      r <- follow (S i) rest obs' sim' st' ;;
      Ok (action_nuro st' :: fst (fst r), obs' :: snd (fst r), snd r)
  end.

(** The cell: [is_left = []], [action_nuro = np.zeros(2)], then the
    loop over [descending_signals]. *)
Definition follow_mcfly (signals : list (list Q)) (obs : list (list (list Q)))
    (sim : Sim) :=
  follow 0 signals obs sim (mk [] [0; 0]).

End Loop.

(** What a frame shows to one eye: the number of its ommatidia all of
    whose channels read below 0.5. *)
Definition dimmed (retina : list (list Q)) : nat :=
  length (filter (forallb (fun c => Following.Qltb c 0.5)) retina).

(** The frame shows strictly more dimmed ommatidia to the left eye
    (retina 0) than to the right eye (retina 1). *)
Definition left_dimmer (vision : list (list (list Q))) : bool :=
  match vision with
  | retina_l :: retina_r :: _ => Nat.ltb (dimmed retina_r) (dimmed retina_l)
  | _ => false
  end.

(** The frames the loop classifies in [n] iterations: the observation
    it starts from, then the observations of the steps before the
    last. *)
Definition frames (obs : list (list (list Q))) (hist : list (list (list (list Q))))
    (n : nat) : list (list (list (list Q))) :=
  firstn n (obs :: hist).

(** The frames [d - 499 .. d] of the classification. *)
Definition window (L : list bool) (d : nat) : list bool :=
  map (fun j => nth j L false) (seq (d - 499) 500).

(** The strict majority of a window. *)
Definition majority (w : list bool) : bool := Nat.ltb (length w) (2 * count_true w).

(** The command in force at step [i] according to the classification
    [L] of the frames: none before step 500, then the vote taken at the
    last multiple of 500. *)
Definition command_at (L : list bool) (i : nat) : list Q :=
  if Nat.ltb i 500 then [0; 0]
  else if majority (window L (500 * (i / 500))) then [0.2; 1.4] else [1.4; 0.2].

Section Replay.

Variable Sim : Type.
Variable sim_step : Sim -> list Q -> list Q -> list (list (list Q)) * Sim.

(** The observations the simulation returns when it is stepped with the
    given commands for Nuro and McFly in turn. *)
Fixpoint observations (sim : Sim) (acts signals : list (list Q))
  : list (list (list (list Q))) :=
  match acts, signals with
  | action_nuro :: acts', action_mcfly :: signals' =>
      let (obs', sim') := sim_step sim action_nuro action_mcfly in
      obs' :: observations sim' acts' signals'
  | _, _ => []
  end.

End Replay.

End Follower.

(** A stand-in for the simulation: its state counts the steps, and Nuro
    sees the target on the left during the first 600 steps and on the
    right afterwards. *)
Module FollowerExample.

Definition vision_right : list (list (list Q)) :=
  [[[1; 1]; [0.8; 0.9]; [1; 0.2]]; [[0.1; 0.2]; [0.3; 0.5]; [0.9; 1]]].

Definition sim_step (sim : nat) (action_nuro action_mcfly : list Q)
  : list (list (list Q)) * nat :=
  (if Nat.ltb sim 600 then Example.vision else vision_right, S sim).

Definition signals : list (list Q) :=
  map ZigZag.command_of (firstn 1001 ZigZag.descending_signals).

End FollowerExample.

(** ** Kinematic replay: renaming the recorded joints *)

Module Seqikpy.

Local Open Scope string_scope.

(** The outcome of a call: a result, [KeyError] on a missing dictionary
    key, or the [ValueError] of unpacking a list of the wrong length
    into two names. *)
Inductive Outcome (A : Type) : Type :=
| Done (a : A)
| KeyError (key : string)
| UnpackError (parts : nat).

Arguments Done {A} a.
Arguments KeyError {A} key.
Arguments UnpackError {A} parts.

(** A Python dictionary: the items in insertion order, one per key. *)
Definition dict (V : Type) : Type := list (string * V).

(** [d[k]]. *)
Fixpoint dict_get {V : Type} (d : dict V) (k : string) : option V :=
  match d with
  | [] => None
  | (k', v) :: rest => if String.eqb k' k then Some v else dict_get rest k
  end.

(** [d[k] = v]: an existing key keeps its place, a new key goes last. *)
Fixpoint dict_set {V : Type} (d : dict V) (k : string) (v : V) : dict V :=
  match d with
  | [] => [(k, v)]
  | (k', v') :: rest =>
      if String.eqb k' k then (k', v) :: rest else (k', v') :: dict_set rest k v
  end.

(** [s[a:b]] for indices [0 <= a <= b]. *)
Definition slice (a b : nat) (s : string) : string := substring a (b - a) s.

(** [s[a:]] for an index [0 <= a]. *)
Fixpoint slice_from (a : nat) (s : string) : string :=
  match a, s with
  | O, _ => s
  | S a', EmptyString => EmptyString
  | S a', String _ s' => slice_from a' s'
  end.

(** [s.split(sep)] for a separator of one character. *)
Fixpoint split (sep : ascii) (s : string) : list string :=
  match s with
  | EmptyString => [EmptyString]
  | String c s' =>
      if Ascii.eqb c sep then EmptyString :: split sep s'
      else match split sep s' with
           | p :: ps => String c p :: ps
           | [] => [String c EmptyString]
           end
  end.

(** The default value of the parameter [corresp_dict]. *)
Definition corresp_dict : dict string :=
  [("ThC", "Coxa"); ("CTr", "Femur"); ("FTi", "Tibia"); ("TiTa", "Tarsus1")].

(** The [else] branch of the loop body: the new name of one joint. *)
Definition newjoint (corresp_dict : dict string) (joint : string) : Outcome string :=
  let leg := slice 6 8 joint in
  let joint_name := slice_from 9 joint in
  match split "_" joint_name with
  | [seg; dof] =>
      if String.eqb dof "pitch"
      then match dict_get corresp_dict seg with
           | Some segment => Done ("joint_" ++ leg ++ segment)
           | None => KeyError seg
           end
      else match dict_get corresp_dict seg with
           | Some segment => Done ("joint_" ++ leg ++ segment ++ "_" ++ dof)
           | None => KeyError seg
           end
  | parts => UnpackError (length parts)
  end.

(** The loop of [format_seqikpy_data] over [data.items()], with the
    dictionary [data_gym] built so far. *)
Fixpoint format_items {V : Type} (corresp_dict : dict string) (items : list (string * V))
    (data_gym : dict V) : Outcome (dict V) :=
  match items with
  | [] => Done data_gym
  | (joint, values) :: rest =>
      if String.eqb joint "meta" || String.eqb joint "swing_stance_time"
      then format_items corresp_dict rest (dict_set data_gym joint values)
      else match newjoint corresp_dict joint with
           | Done name => format_items corresp_dict rest (dict_set data_gym name values)
           | KeyError k => KeyError k
           | UnpackError n => UnpackError n
           end
  end.

(** [format_seqikpy_data(data, corresp_dict)]. *)
Definition format_seqikpy_data {V : Type} (data : dict V) (corresp_dict : dict string)
  : Outcome (dict V) :=
  format_items corresp_dict data [].

(** A recorded joint name as the data file spells it: a prefix of six
    characters, the leg, a separator, the segment and the degree of
    freedom. *)
Definition recorded (prefix leg : string) (sep : ascii) (seg dof : string) : string :=
  prefix ++ leg ++ String sep (seg ++ "_" ++ dof).

(** The test of the loop for the two entries that are copied as they
    are. *)
Definition special (joint : string) : bool :=
  String.eqb joint "meta" || String.eqb joint "swing_stance_time".

(** The name the function gives a recorded joint of leg [leg] whose
    segment translates to [segment]: the degree of freedom is appended
    unless it is the pitch. *)
Definition gym_name (leg segment dof : string) : string :=
  "joint_" ++ leg ++ segment ++ (if String.eqb dof "pitch" then "" else "_" ++ dof).

(** The key under which an item of [data] is stored in [data_gym], if
    the item can be stored. *)
Definition renamed (corresp_dict : dict string) (joint : string) : option string :=
  if special joint then Some joint
  else match newjoint corresp_dict joint with
       | Done name => Some name
       | _ => None
       end.

(** [c in s] for a character. *)
Fixpoint has_char (c : ascii) (s : string) : bool :=
  match s with
  | EmptyString => false
  | String c' s' => Ascii.eqb c' c || has_char c s'
  end.

(** The translation of a segment by the default dictionary. *)
Definition segment_of (seg : string) : string :=
  match dict_get corresp_dict seg with
  | Some segment => segment
  | None => ""
  end.

(** One joint of a recording: leg, segment, degree of freedom and the
    recorded values. *)
Definition row (V : Type) : Type := (string * string * string * V)%type.

Definition recorded_item {V : Type} (prefix : string) (sep : ascii) (r : row V)
  : string * V :=
  let '(leg, seg, dof, values) := r in (recorded prefix leg sep seg dof, values).

Definition gym_item {V : Type} (r : row V) : string * V :=
  let '(leg, seg, dof, values) := r in (gym_name leg (segment_of seg) dof, values).

(** A row the default dictionary can rename. *)
Definition row_ok {V : Type} (r : row V) : Prop :=
  let '(leg, seg, dof, _) := r in
  String.length leg = 2%nat
  /\ In seg (map fst corresp_dict)
  /\ has_char "_" dof = false.

End Seqikpy.

Module SeqikpyExample.

Local Open Scope string_scope.

Definition data : Seqikpy.dict nat :=
  [("meta", 0%nat); ("Angle_RF_ThC_yaw", 1%nat); ("Angle_RF_ThC_pitch", 2%nat);
   ("Angle_LH_TiTa_pitch", 3%nat); ("swing_stance_time", 4%nat);
   ("Angle_LH_CTr_roll", 5%nat)].

(** What [format_seqikpy_data] returns for it. *)
Definition data_gym : Seqikpy.dict nat :=
  [("meta", 0%nat); ("joint_RFCoxa_yaw", 1%nat); ("joint_RFCoxa", 2%nat);
   ("joint_LHTarsus1", 3%nat); ("swing_stance_time", 4%nat);
   ("joint_LHFemur_roll", 5%nat)].

Definition rows : list (Seqikpy.row nat) :=
  [("RF", "ThC", "yaw", 1%nat); ("RF", "ThC", "pitch", 2%nat);
   ("LH", "TiTa", "pitch", 3%nat); ("LH", "CTr", "roll", 5%nat)].

End SeqikpyExample.

(** ** Kinematic replay: the labels of the torque plot *)

Module TorquePlot.

Local Open Scope string_scope.

(** [s.startswith(p)]. *)
Fixpoint starts_with (p s : string) : bool :=
  match p, s with
  | EmptyString, _ => true
  | String _ _, EmptyString => false
  | String a p', String b s' => Ascii.eqb b a && starts_with p' s'
  end.

(** [sub in s]. *)
Fixpoint contains (sub s : string) : bool :=
  starts_with sub s
  || match s with
     | EmptyString => false
     | String _ s' => contains sub s'
     end.

(** [s.replace(old, new)] for a non-empty [old]: the occurrences of
    [old] are replaced from left to right without overlap; [skip]
    counts the characters of a replaced occurrence still to pass. *)
Fixpoint replace_from (old new : string) (skip : nat) (s : string) : string :=
  match s with
  | EmptyString => EmptyString
  | String c s' =>
      match skip with
      | S k => replace_from old new k s'
      | O =>
          if starts_with old s
          then new ++ replace_from old new (String.length old - 1) s'
          else String c (replace_from old new 0 s')
      end
  end.

Definition replace (old new s : string) : string := replace_from old new 0 s.

(** The label of one joint of the focus leg: the joint name without
    [joint_] and the leg, with [_pitch] appended when no [_] is left. *)
Definition label (focus_leg joint : string) : string :=
  let label := replace ("joint_" ++ focus_leg) "" joint in
  if negb (contains "_" label) then label ++ "_pitch" else label.

End TorquePlot.

(** * Properties *)

(** ** The definitions on concrete inputs *)

Example overrides_left_backward :
  HybridTurningFly.compute_intrinsic_overrides Example.freqs [- (1); 0.5]
  = Ok ([- (12); - (12); - (12); 12; 12; 12], [1; 1; 1; 0.5; 0.5; 0.5]).
Proof. reflexivity. Qed.

Example overrides_short_command :
  HybridTurningFly.compute_intrinsic_overrides Example.freqs [1] = Raise IndexError.
Proof. reflexivity. Qed.

Example first_control_step :
  map (fun st => (map Qred (fst st), map Qred (snd st)))
    (fst (CPG.run (fun x => x - x * x * x / 6) (6283185307 # 1000000000)
            [[1; 1]] (Example.fly 1)))
  = [(repeat (18849555921 # 2500000000000) 6, repeat (1 # 500) 6)].
Proof. now vm_compute. Qed.

Example long_command_rejected :
  fst (snd (CPG.run (fun x => x - x * x * x / 6) (6283185307 # 1000000000)
              [[1; 1]; [0.2; 1; 3]] (Example.fly 1)))
  = Raise InvalidStateError.
Proof. now vm_compute. Qed.

Example zigzag_first_rows :
  firstn 2 ZigZag.descending_signals
  = [[1.6 - 1.4; 1.4]; [1.6 - 1.4; 1.4]]%float.
Proof. now vm_compute. Qed.

(** ** Arithmetic on rationals, up to syntactic equality *)

Lemma Qmult_one_r (x : Q) : x * 1 = x.
Proof.
  destruct x as [n d]. unfold Qmult; simpl.
  now rewrite Z.mul_1_r, Pos.mul_1_r.
Qed.

Lemma Qmult_minus_one_r (x : Q) : x * - (1) = - x.
Proof.
  destruct x as [n d]. unfold Qmult, Qopp; simpl.
  rewrite Pos.mul_1_r. f_equal. lia.
Qed.

Lemma Qopp_opp_eq (x : Q) : - - x = x.
Proof.
  destruct x as [n d]. unfold Qopp; simpl. now rewrite Z.opp_involutive.
Qed.

Lemma Qabs_opp_eq (x : Q) : Qabs (- x) = Qabs x.
Proof.
  destruct x as [n d]. unfold Qabs, Qopp; simpl. now rewrite Z.abs_opp.
Qed.

Lemma Qgtb_true (x y : Q) : Qgtb x y = true <-> y < x.
Proof.
  unfold Qgtb. rewrite negb_true_iff, <- not_true_iff_false, Qle_bool_iff.
  split; [apply Qnot_le_lt | apply Qlt_not_le].
Qed.

Lemma Qgtb_false (x y : Q) : Qgtb x y = false <-> x <= y.
Proof.
  unfold Qgtb. now rewrite negb_false_iff, Qle_bool_iff.
Qed.

Lemma map_mult_one (l : list Q) : map (fun x => x * 1) l = l.
Proof.
  induction l as [|x l IH]; simpl; [reflexivity|].
  now rewrite Qmult_one_r, IH.
Qed.

Lemma map_mult_minus_one (l : list Q) : map (fun x => x * - (1)) l = map Qopp l.
Proof.
  apply map_ext. intros x. apply Qmult_minus_one_r.
Qed.

Lemma map_opp_opp (l : list Q) : map Qopp (map Qopp l) = l.
Proof.
  rewrite map_map. induction l as [|x l IH]; simpl; [reflexivity|].
  now rewrite Qopp_opp_eq, IH.
Qed.

(** ** Slices *)

Lemma imul_from_upto (k : nat) (c1 c2 : Q) (a : list Q) :
  imul_from k c2 (imul_upto k c1 a)
  = map (fun x => x * c1) (firstn k a) ++ map (fun x => x * c2) (skipn k a).
Proof.
  unfold imul_from, imul_upto. revert a.
  induction k as [|k IH]; intros a; simpl; [reflexivity|].
  destruct a as [|x a]; simpl; [reflexivity|].
  now rewrite IH.
Qed.

Lemma firstn_sides {A : Type} (f g : A -> A) (k : nat) (a : list A) :
  firstn k (map f (firstn k a) ++ map g (skipn k a)) = map f (firstn k a).
Proof.
  revert a. induction k as [|k IH]; intros a; simpl; [reflexivity|].
  destruct a as [|x a]; simpl; [reflexivity|]. now rewrite IH.
Qed.

Lemma skipn_sides {A : Type} (f g : A -> A) (k : nat) (a : list A) :
  skipn k (map f (firstn k a) ++ map g (skipn k a)) = map g (skipn k a).
Proof.
  revert a. induction k as [|k IH]; intros a; simpl; [reflexivity|].
  destruct a as [|x a]; simpl; [reflexivity|]. now rewrite IH.
Qed.

Lemma nth_sides (f g : Q -> Q) (a : list Q) (i : nat) :
  f 0 = 0 -> g 0 = 0 ->
  nth i (map f (firstn 3 a) ++ map g (skipn 3 a)) 0
  = if Nat.ltb i 3 then f (nth i a 0) else g (nth i a 0).
Proof.
  intros Hf Hg.
  destruct a as [|x [|y [|z a]]]; destruct i as [|[|[|i]]]; simpl; auto.
  rewrite <- Hg at 1. apply map_nth.
Qed.

(** ** The turning modulator *)

Lemma direction_scales (d : Q) (l : list Q) :
  map (fun x => x * direction d) l = map (spec_frequency d) l.
Proof.
  unfold direction, spec_frequency. destruct (Qgtb d 0).
  - rewrite map_mult_one. now rewrite map_id.
  - apply map_mult_minus_one.
Qed.

(** The update in closed form: the amplitudes are three copies of each
    absolute steering value, the frequencies the baseline with the sign
    of each side. *)
Lemma compute_intrinsic_overrides_eq (base : list Q) (dl dr : Q) :
  HybridTurningFly.compute_intrinsic_overrides base [dl; dr]
  = Ok (map (spec_frequency dl) (firstn 3 base) ++ map (spec_frequency dr) (skipn 3 base),
        [Qabs dl; Qabs dl; Qabs dl; Qabs dr; Qabs dr; Qabs dr]).
Proof.
  unfold HybridTurningFly.compute_intrinsic_overrides; simpl.
  now rewrite imul_from_upto, !direction_scales.
Qed.

Lemma modulate_eq (dl dr : Q) (self : HybridTurningFly.t) :
  HybridTurningFly.modulate [dl; dr] self
  = (Ok tt,
     HybridTurningFly.mk (HybridTurningFly.fly_intrinsic_freqs self)
       (with_intrinsic_freqs
          (map (spec_frequency dl) (firstn 3 (HybridTurningFly.fly_intrinsic_freqs self))
           ++ map (spec_frequency dr) (skipn 3 (HybridTurningFly.fly_intrinsic_freqs self)))
          (with_intrinsic_amps [Qabs dl; Qabs dl; Qabs dl; Qabs dr; Qabs dr; Qabs dr]
             (HybridTurningFly.cpg_network self)))).
Proof.
  unfold HybridTurningFly.modulate. now rewrite compute_intrinsic_overrides_eq.
Qed.

Lemma modulate_keeps_baseline (action : list Q) (self : HybridTurningFly.t) :
  HybridTurningFly.fly_intrinsic_freqs (snd (HybridTurningFly.modulate action self))
  = HybridTurningFly.fly_intrinsic_freqs self.
Proof.
  unfold HybridTurningFly.modulate.
  destruct (HybridTurningFly.compute_intrinsic_overrides _ _) as [[f a]|e]; reflexivity.
Qed.

Lemma modulate_all_keeps_baseline (actions : list (list Q)) (self : HybridTurningFly.t) :
  HybridTurningFly.fly_intrinsic_freqs (snd (HybridTurningFly.modulate_all actions self))
  = HybridTurningFly.fly_intrinsic_freqs self.
Proof.
  revert self. induction actions as [|a rest IH]; intros self; simpl; [reflexivity|].
  pose proof (modulate_keeps_baseline a self) as H.
  destruct (HybridTurningFly.modulate a self) as [[u|e] self']; simpl in *.
  - now rewrite IH.
  - exact H.
Qed.

Lemma steering_zero_reverses (d : Q) : d == 0 -> spec_frequency d = Qopp.
Proof.
  intros H. unfold spec_frequency.
  assert (Hd : Qgtb d 0 = false) by (apply Qgtb_false; rewrite H; apply Qle_refl).
  now rewrite Hd.
Qed.

(** The example flies are what [HybridTurningFly.__init__] builds. *)
Lemma example_fly_init (a : Q) :
  HybridTurningFly_init (1 # 10000) Example.freqs (repeat a 6) Example.weights
    Example.biases Example.rates (repeat 0 6) (repeat 0 6) 0
  = Ok (Example.fly a).
Proof. reflexivity. Qed.

(** C1 (as amended).  When a side's steering value is 0, the update
    sets the three intrinsic amplitudes of that side to 0 and its
    intrinsic frequencies to the negated baseline: the test [δ > 0] is
    strict, so 0 takes the [else -1] branch. *)
Theorem zero_steering_quiescent_reversed (base : list Q) (dl dr : Q) (s : Side) :
  steering s dl dr == 0 ->
  exists freqs amps,
    HybridTurningFly.compute_intrinsic_overrides base [dl; dr] = Ok (freqs, amps)
    /\ length (side_slice s amps) = 3%nat
    /\ Forall (fun a => a == 0) (side_slice s amps)
    /\ side_slice s freqs = map Qopp (side_slice s base).
Proof.
  intros Hz. rewrite compute_intrinsic_overrides_eq.
  eexists; eexists; split; [reflexivity|].
  assert (Ha : Qabs (steering s dl dr) == 0) by (rewrite Hz; reflexivity).
  destruct s; unfold side_slice; cbn [steering] in Hz, Ha.
  - split; [reflexivity|]. split; [repeat constructor; exact Ha|].
    rewrite firstn_sides. now rewrite steering_zero_reverses.
  - split; [reflexivity|]. split; [repeat constructor; exact Ha|].
    rewrite skipn_sides. now rewrite steering_zero_reverses.
Qed.

Lemma zero_steering_quiescent_reversed_witness :
  exists freqs amps,
    HybridTurningFly.compute_intrinsic_overrides Example.freqs [0; 1.4] = Ok (freqs, amps)
    /\ length (side_slice Left amps) = 3%nat
    /\ Forall (fun a => a == 0) (side_slice Left amps)
    /\ side_slice Left freqs = map Qopp (side_slice Left Example.freqs).
Proof.
  apply (zero_steering_quiescent_reversed Example.freqs 0 1.4 Left). reflexivity.
Defined.

(** C1 as stated fails: with the baseline frequency 12 on every
    oscillator and the command [0, 1], the left steering value is 0 and
    the left frequencies come out as -12, not as the baseline 12. *)
Lemma zero_steering_keeps_baseline_counterexample :
  exists freqs amps,
    HybridTurningFly.compute_intrinsic_overrides [12; 12; 12; 12; 12; 12] [0; 1]
    = Ok (freqs, amps)
    /\ steering Left 0 1 == 0
    /\ side_slice Left freqs = [- (12); - (12); - (12)]
    /\ ~ Forall2 Qeq (side_slice Left freqs) (side_slice Left [12; 12; 12; 12; 12; 12]).
Proof.
  eexists; eexists; split; [vm_compute; reflexivity|].
  split; [reflexivity|]. split; [reflexivity|].
  simpl. intros H. inversion H as [|x y l l' Hxy _]; subst.
  vm_compute in Hxy. discriminate.
Qed.

(** C2 (as amended).  The update sets the intrinsic amplitude of every
    oscillator to the absolute steering value of its side, whatever the
    amplitude configured before; for an oscillator whose baseline
    amplitude is 1 this is the absolute value times the baseline
    amplitude. *)
Theorem amplitude_is_abs_steering (self : HybridTurningFly.t) (dl dr : Q) :
  exists self',
    HybridTurningFly.modulate [dl; dr] self = (Ok tt, self')
    /\ intrinsic_amps (HybridTurningFly.cpg_network self')
       = [Qabs dl; Qabs dl; Qabs dl; Qabs dr; Qabs dr; Qabs dr]
    /\ (forall i, (i < 6)%nat ->
          nth i (intrinsic_amps (HybridTurningFly.cpg_network self')) 0
          = Qabs (steering (side_of i) dl dr))
    /\ (forall i, (i < 6)%nat ->
          nth i (intrinsic_amps (HybridTurningFly.cpg_network self)) 0 == 1 ->
          nth i (intrinsic_amps (HybridTurningFly.cpg_network self')) 0
          == Qabs (steering (side_of i) dl dr)
             * nth i (intrinsic_amps (HybridTurningFly.cpg_network self)) 0).
Proof.
  rewrite modulate_eq. eexists; split; [reflexivity|].
  cbn [HybridTurningFly.cpg_network intrinsic_amps with_intrinsic_freqs with_intrinsic_amps].
  assert (Hnth : forall i, (i < 6)%nat ->
            nth i [Qabs dl; Qabs dl; Qabs dl; Qabs dr; Qabs dr; Qabs dr] 0
            = Qabs (steering (side_of i) dl dr)).
  { intros i Hi. do 6 (destruct i as [|i]; [reflexivity|]). lia. }
  split; [reflexivity|]. split; [exact Hnth|].
  intros i Hi Hone. rewrite (Hnth i Hi), Hone. now rewrite Qmult_1_r.
Qed.

(** On the fly with the baseline amplitude 1, the command [0.2, 1]
    lowers the amplitude of oscillator 0 from 1 to 0.2. *)
Lemma amplitude_is_abs_steering_witness :
  exists self',
    HybridTurningFly.modulate [0.2; 1] (Example.fly 1) = (Ok tt, self')
    /\ nth 0 (intrinsic_amps (HybridTurningFly.cpg_network (Example.fly 1))) 0 == 1
    /\ nth 0 (intrinsic_amps (HybridTurningFly.cpg_network self')) 0 = Qabs 0.2
    /\ nth 0 (intrinsic_amps (HybridTurningFly.cpg_network self')) 0
       == Qabs 0.2 * nth 0 (intrinsic_amps (HybridTurningFly.cpg_network (Example.fly 1))) 0.
Proof.
  destruct (amplitude_is_abs_steering (Example.fly 1) 0.2 1) as [self' [H1 [_ [H3 H4]]]].
  exists self'. split; [exact H1|]. split; [reflexivity|].
  split; [apply (H3 0%nat); lia | apply (H4 0%nat); [lia | reflexivity]].
Defined.

(** C2 as stated fails: on the fly configured with the baseline
    amplitude 2, the command [1, 1] sets every intrinsic amplitude to
    1, not to |1| × 2. *)
Lemma amplitude_times_baseline_counterexample :
  exists self',
    HybridTurningFly.modulate [1; 1] (Example.fly 2) = (Ok tt, self')
    /\ intrinsic_amps (HybridTurningFly.cpg_network (Example.fly 2)) = [2; 2; 2; 2; 2; 2]
    /\ intrinsic_amps (HybridTurningFly.cpg_network self') = [1; 1; 1; 1; 1; 1]
    /\ ~ Forall2 (fun new old => new == Qabs 1 * old)
          (intrinsic_amps (HybridTurningFly.cpg_network self'))
          (intrinsic_amps (HybridTurningFly.cpg_network (Example.fly 2))).
Proof.
  eexists; split; [vm_compute; reflexivity|].
  split; [reflexivity|]. split; [reflexivity|].
  simpl. intros H. inversion H as [|x y l l' Hxy _]; subst.
  vm_compute in Hxy. discriminate.
Qed.

Lemma spec_frequency_zero (d : Q) : spec_frequency d 0 = 0.
Proof. unfold spec_frequency. destruct (Qgtb d 0); reflexivity. Qed.

(** C3.  After any history of control steps, the next update computes
    the intrinsic frequencies per side from the fly's baseline, which
    no update changes: oscillators 0 to 2 take the baseline frequency
    when the left steering value is positive and its negation
    otherwise, oscillators 3 to 5 likewise with the right steering
    value. *)
Theorem frequency_sign_per_side
    (self self' : HybridTurningFly.t) (history : list (list Q)) (dl dr : Q) :
  HybridTurningFly.modulate_all history self = (Ok tt, self') ->
  exists self'',
    HybridTurningFly.modulate [dl; dr] self' = (Ok tt, self'')
    /\ HybridTurningFly.fly_intrinsic_freqs self''
       = HybridTurningFly.fly_intrinsic_freqs self
    /\ intrinsic_freqs (HybridTurningFly.cpg_network self'')
       = map (spec_frequency dl) (firstn 3 (HybridTurningFly.fly_intrinsic_freqs self))
         ++ map (spec_frequency dr) (skipn 3 (HybridTurningFly.fly_intrinsic_freqs self))
    /\ forall i,
         nth i (intrinsic_freqs (HybridTurningFly.cpg_network self'')) 0
         = spec_frequency (steering (side_of i) dl dr)
             (nth i (HybridTurningFly.fly_intrinsic_freqs self) 0).
Proof.
  intros Hrun.
  assert (Hbase : HybridTurningFly.fly_intrinsic_freqs self'
                  = HybridTurningFly.fly_intrinsic_freqs self).
  { rewrite <- (modulate_all_keeps_baseline history self). now rewrite Hrun. }
  rewrite modulate_eq. eexists; split; [reflexivity|].
  cbn [HybridTurningFly.cpg_network HybridTurningFly.fly_intrinsic_freqs
       intrinsic_freqs with_intrinsic_freqs].
  rewrite Hbase. split; [reflexivity|]. split; [reflexivity|].
  intros i. rewrite nth_sides by apply spec_frequency_zero.
  unfold side_of. destruct (Nat.ltb i 3); reflexivity.
Qed.

Lemma frequency_sign_per_side_witness :
  exists self' self'',
    HybridTurningFly.modulate_all [[1; 1]; [- (1); 0.5]] (Example.fly 2) = (Ok tt, self')
    /\ HybridTurningFly.modulate [0.2; - (1.4)] self' = (Ok tt, self'')
    /\ intrinsic_freqs (HybridTurningFly.cpg_network self'')
       = map (spec_frequency 0.2) (firstn 3 Example.freqs)
         ++ map (spec_frequency (- (1.4))) (skipn 3 Example.freqs).
Proof.
  eexists.
  destruct (frequency_sign_per_side (Example.fly 2) _ [[1; 1]; [- (1); 0.5]] 0.2 (- (1.4))
              eq_refl) as [self'' [H1 [_ [H3 _]]]].
  exists self''. split; [reflexivity|]. split; [exact H1 | exact H3].
Defined.

Lemma spec_frequency_flip (d x : Q) :
  ~ d == 0 -> spec_frequency (- d) x = - spec_frequency d x.
Proof.
  intros Hd. unfold spec_frequency.
  destruct (Qgtb d 0) eqn:E; destruct (Qgtb (- d) 0) eqn:E'.
  - apply Qgtb_true in E, E'. exfalso. lra.
  - reflexivity.
  - now rewrite Qopp_opp_eq.
  - apply Qgtb_false in E, E'. exfalso. apply Hd. lra.
Qed.

(** C6 (as amended).  Between two updates that differ only in the sign
    of one side's steering value δ, with δ ≠ 0, the intrinsic
    frequencies of that side in one run are the element-wise negation
    of those in the other run, and the other side's frequencies and all
    amplitudes are equal. *)
Theorem sign_flip_negates_side (base : list Q) (s : Side) (d other : Q) :
  ~ d == 0 ->
  exists freqs amps freqs' amps',
    HybridTurningFly.compute_intrinsic_overrides base (command s d other)
    = Ok (freqs, amps)
    /\ HybridTurningFly.compute_intrinsic_overrides base (command s (- d) other)
       = Ok (freqs', amps')
    /\ side_slice s freqs' = map Qopp (side_slice s freqs)
    /\ side_slice (opposite s) freqs' = side_slice (opposite s) freqs
    /\ amps' = amps.
Proof.
  intros Hd.
  assert (Hflip : forall l, map (spec_frequency (- d)) l = map Qopp (map (spec_frequency d) l)).
  { intros l. rewrite map_map. apply map_ext. intros x. now apply spec_frequency_flip. }
  destruct s; unfold command; rewrite !compute_intrinsic_overrides_eq;
    do 4 eexists; (split; [reflexivity|]); (split; [reflexivity|]);
    unfold side_slice, opposite; rewrite !firstn_sides, !skipn_sides, !Qabs_opp_eq;
    repeat split; apply Hflip.
Qed.

Lemma sign_flip_negates_side_witness :
  exists freqs amps freqs' amps',
    HybridTurningFly.compute_intrinsic_overrides Example.freqs (command Right 1.4 0.2)
    = Ok (freqs, amps)
    /\ HybridTurningFly.compute_intrinsic_overrides Example.freqs (command Right (- 1.4) 0.2)
       = Ok (freqs', amps')
    /\ side_slice Right freqs' = map Qopp (side_slice Right freqs)
    /\ side_slice (opposite Right) freqs' = side_slice (opposite Right) freqs
    /\ amps' = amps.
Proof.
  apply (sign_flip_negates_side Example.freqs Right 1.4 0.2).
  intros H. vm_compute in H. discriminate.
Defined.

(** C6 as stated fails at δ = 0: the commands [0, 1] and [-0, 1] are
    the same command, both runs give the left oscillators the frequency
    -12, and -12 is not the negation of -12. *)
Lemma sign_flip_zero_counterexample :
  exists freqs amps freqs' amps',
    HybridTurningFly.compute_intrinsic_overrides [12; 12; 12; 12; 12; 12] (command Left 0 1)
    = Ok (freqs, amps)
    /\ HybridTurningFly.compute_intrinsic_overrides [12; 12; 12; 12; 12; 12]
         (command Left (- 0) 1)
       = Ok (freqs', amps')
    /\ side_slice Left freqs = [- (12); - (12); - (12)]
    /\ side_slice Left freqs' = [- (12); - (12); - (12)]
    /\ ~ Forall2 (fun x' x => x' == - x) (side_slice Left freqs') (side_slice Left freqs).
Proof.
  do 4 eexists. split; [vm_compute; reflexivity|]. split; [vm_compute; reflexivity|].
  split; [reflexivity|]. split; [reflexivity|].
  simpl. intros H. inversion H as [|x y l l' Hxy _]; subst.
  vm_compute in Hxy. discriminate.
Qed.

(** ** The zig-zag signals *)

Lemma positive_steering_keeps_baseline (base : list Q) (l r : Q) :
  0 < l -> 0 < r ->
  HybridTurningFly.compute_intrinsic_overrides base [l; r]
  = Ok (base, [Qabs l; Qabs l; Qabs l; Qabs r; Qabs r; Qabs r]).
Proof.
  intros Hl Hr. rewrite compute_intrinsic_overrides_eq.
  unfold spec_frequency.
  apply Qgtb_true in Hl, Hr. rewrite Hl, Hr.
  now rewrite !map_id, firstn_skipn.
Qed.

(** The binary64 wave is the exact wave of [right_at] with rounded
    values: both are high on the samples where the comparison holds. *)
Lemma right_value_cases (x : Q) :
  ZigZag.right_at x = (if ZigZag.high x then 1 else 0) * 1.2 + 0.2
  /\ ZigZag.right_value (ZigZag.high x) = (if ZigZag.high x then 1.4 else 0.2)%float.
Proof.
  split; [reflexivity|]. destruct (ZigZag.high x); reflexivity.
Qed.

(** Whatever the comparison gives, the two values of a sample are as
    [zigzag_pair_ok] says. *)
Lemma zigzag_sample_ok (b : bool) :
  zigzag_pair_ok (ZigZag.left_of (ZigZag.right_value b)) (ZigZag.right_value b).
Proof.
  unfold zigzag_pair_ok, rounded_near.
  destruct b.
  - split; [right; split; [reflexivity|]; split; [reflexivity | vm_compute; discriminate]|].
    repeat split; reflexivity.
  - split; [left; split; [reflexivity|]; split; [reflexivity | vm_compute; discriminate]|].
    repeat split; reflexivity.
Qed.

Lemma zigzag_columns (ts : list Q) :
  Forall2 zigzag_pair_ok
    (map ZigZag.left_of (map (fun x => ZigZag.right_value (ZigZag.high x)) ts))
    (map (fun x => ZigZag.right_value (ZigZag.high x)) ts).
Proof.
  induction ts as [|x ts IH]; simpl; constructor; [apply zigzag_sample_ok | exact IH].
Qed.

Lemma zigzag_rows (ts : list Q) :
  map (fun lr => [fst lr; snd lr])
      (combine (map ZigZag.left_of (map (fun x => ZigZag.right_value (ZigZag.high x)) ts))
         (map (fun x => ZigZag.right_value (ZigZag.high x)) ts))
  = map (fun x => [ZigZag.left_of (ZigZag.right_value (ZigZag.high x));
                   ZigZag.right_value (ZigZag.high x)]) ts.
Proof.
  induction ts as [|x ts IH]; simpl; [reflexivity|]. now rewrite IH.
Qed.

(** A row of the zig-zag signals keeps the baseline frequencies. *)
Lemma zigzag_row_keeps_baseline (b : bool) (base : list Q) :
  exists amps,
    HybridTurningFly.compute_intrinsic_overrides base
      (ZigZag.command_of [ZigZag.left_of (ZigZag.right_value b); ZigZag.right_value b])
    = Ok (base, amps).
Proof.
  destruct b; eexists; cbn [ZigZag.command_of map];
    apply positive_steering_keeps_baseline; vm_compute; reflexivity.
Qed.

(** The command [np.zeros(2)] negates the whole baseline and sets every
    amplitude to 0. *)
Lemma zero_command_reverses (base : list Q) :
  HybridTurningFly.compute_intrinsic_overrides base (ZigZag.command_of (ZigZag.zeros 2))
  = Ok (map Qopp base, [0; 0; 0; 0; 0; 0]).
Proof.
  change (ZigZag.command_of (ZigZag.zeros 2)) with [0; 0].
  rewrite compute_intrinsic_overrides_eq.
  rewrite (steering_zero_reverses 0) by reflexivity.
  now rewrite <- map_app, firstn_skipn.
Qed.

(** The square wave does alternate: the demo has 12000 samples, the
    first commands a right-heavy drive, the sample at 0.3 s a
    left-heavy one. *)
Lemma zigzag_alternates :
  Z.of_nat (length ZigZag.descending_signals) = 12000%Z
  /\ nth 0 ZigZag.descending_signals [] = [1.6 - 1.4; 1.4]%float
  /\ nth 3000 ZigZag.descending_signals [] = [1.6 - 0.2; 0.2]%float.
Proof.
  repeat split; now vm_compute.
Qed.

(** C10 (as amended).  At every time sample of the zig-zag demo, and
    whichever way the comparison of the square wave falls, the right
    descending signal is 0.2 or 1.4 and the left one is the
    binary64 difference 1.6 - right: it is within 2^-52 of 1.4 or 0.2
    respectively but equal to neither, the binary64 sum left + right is
    1.6, and both signals are strictly positive.  So at each of the
    12000 steps of the demo loop the command of the zig-zagging fly
    (McFly) leaves the baseline frequencies un-negated, while the
    command [np.zeros(2)] of the fly that stands still (Nuro) takes the
    negative-frequency branch: it negates every baseline frequency,
    with all amplitudes 0. *)
Theorem zigzag_only_standing_fly_reverses :
  (forall b : bool,
      zigzag_pair_ok (ZigZag.left_of (ZigZag.right_value b)) (ZigZag.right_value b))
  /\ Forall2 zigzag_pair_ok ZigZag.left_descending_signal ZigZag.right_descending_signal
  /\ Z.of_nat (length ZigZag.multifly_actions) = 12000%Z
  /\ Forall (fun a =>
              (forall base, exists amps,
                  HybridTurningFly.compute_intrinsic_overrides base (ZigZag.McFly a)
                  = Ok (base, amps))
              /\ (forall base,
                     HybridTurningFly.compute_intrinsic_overrides base (ZigZag.Nuro a)
                     = Ok (map Qopp base, [0; 0; 0; 0; 0; 0])))
       ZigZag.multifly_actions.
Proof.
  split; [exact zigzag_sample_ok|].
  split; [apply zigzag_columns|].
  split; [now vm_compute|].
  unfold ZigZag.multifly_actions, ZigZag.descending_signals,
    ZigZag.left_descending_signal, ZigZag.right_descending_signal.
  rewrite zigzag_rows, map_map. apply Forall_map, Forall_forall.
  intros x _. cbn [ZigZag.McFly ZigZag.Nuro]. split; intros base.
  - apply zigzag_row_keeps_baseline.
  - apply zero_command_reverses.
Qed.

(** C10 as stated fails in both parts.  At the first time sample the
    right signal is 1.4 and the left one is the binary64 difference
    1.6 - 1.4, which is neither 0.2 nor 1.4.  And at the first step of
    the demo loop the fly that stands still is commanded [0, 0]: with
    the baseline frequency 12 its update takes the negative-frequency
    branch and writes -12 on all six oscillators. *)
Lemma zigzag_demo_counterexample :
  (exists l r,
      nth_error ZigZag.left_descending_signal 0 = Some l
      /\ nth_error ZigZag.right_descending_signal 0 = Some r
      /\ (r =? 1.4)%float = true
      /\ (l =? 0.2)%float = false /\ (l =? 1.4)%float = false)
  /\ exists a freqs amps,
      nth_error ZigZag.multifly_actions 0 = Some a
      /\ ZigZag.Nuro a = [0; 0]
      /\ HybridTurningFly.compute_intrinsic_overrides Example.freqs (ZigZag.Nuro a)
         = Ok (freqs, amps)
      /\ freqs = [- (12); - (12); - (12); - (12); - (12); - (12)]
      /\ ~ Forall2 Qeq freqs Example.freqs.
Proof.
  split.
  - do 2 eexists. split; [now vm_compute|]. split; [now vm_compute|].
    repeat split; reflexivity.
  - do 3 eexists. split; [now vm_compute|]. split; [reflexivity|].
    split; [vm_compute; reflexivity|]. split; [reflexivity|].
    intros H. inversion H as [|x y l l' Hxy _]; subst.
    vm_compute in Hxy. discriminate.
Qed.

(** ** The ommatidia comparison figure *)

Lemma suptitle_eq (l r : nat) :
  Following.suptitle l r = Ok (Following.title_with l r "<" "R").
Proof.
  unfold Following.suptitle. now rewrite Nat.ltb_irrefl.
Qed.

Lemma traverse_total {A B : Type} (f : A -> Result B) (l : list A) :
  Forall (fun x => exists y, f x = Ok y) l ->
  exists ys, Following.traverse f l = Ok ys /\ length ys = length l.
Proof.
  induction 1 as [|x l [y Hy] _ [ys [Hys Hlen]]]; simpl.
  - now exists [].
  - rewrite Hy, Hys. simpl. exists (y :: ys). simpl. now rewrite Hlen.
Qed.

Lemma max_last_axis_total (vision : list (list (list Q))) :
  Forall (Forall (fun channels => channels <> [])) vision ->
  exists rows, Following.max_last_axis vision = Ok rows /\ length rows = length vision.
Proof.
  intros H. apply traverse_total.
  eapply Forall_impl; [|exact H]. intros retina Hret.
  destruct (traverse_total Following.max_channels retina) as [ys [Hys _]].
  - eapply Forall_impl; [|exact Hret]. intros [|c cs] Hne; [contradiction|].
    simpl. eexists; reflexivity.
  - now exists ys.
Qed.

(** C9.  The title of the comparison figure compares the left count
    with itself, so for all counts it shows [<] and [turn R]; the cell
    produces that title from the two counts for every vision array of
    at least two retinas whose ommatidia have at least one channel. *)
Theorem comparison_title_always_turn_R :
  (forall l r : nat, Following.suptitle l r = Ok (Following.title_with l r "<" "R"))
  /\ (forall vision row_l row_r rest,
        Following.max_last_axis vision = Ok (row_l :: row_r :: rest) ->
        Following.comparison_title vision
        = Ok (Following.title_with
                (Following.count_below Following.threshold row_l)
                (Following.count_below Following.threshold row_r) "<" "R"))
  /\ (forall vision,
        (2 <= length vision)%nat ->
        Forall (Forall (fun channels => channels <> [])) vision ->
        exists l r, Following.comparison_title vision
                    = Ok (Following.title_with l r "<" "R")).
Proof.
  assert (Hrows : forall vision row_l row_r rest,
            Following.max_last_axis vision = Ok (row_l :: row_r :: rest) ->
            Following.comparison_title vision
            = Ok (Following.title_with
                    (Following.count_below Following.threshold row_l)
                    (Following.count_below Following.threshold row_r) "<" "R")).
  { intros vision row_l row_r rest H.
    unfold Following.comparison_title. rewrite H. simpl. apply suptitle_eq. }
  split; [exact suptitle_eq|]. split; [exact Hrows|].
  intros vision Hlen Hshape.
  destruct (max_last_axis_total vision Hshape) as [rows [Hmax Hl]].
  destruct rows as [|row_l [|row_r rest]]; simpl in Hl; try lia.
  do 2 eexists. exact (Hrows _ _ _ _ Hmax).
Qed.

(** On the example the left eye sees two dimmed ommatidia and the right
    eye none, and the title still reads [<] and [turn R]. *)
Lemma comparison_title_always_turn_R_witness :
  Following.comparison_title Example.vision = Ok "L (2) < R (0) -> turn R"%string.
Proof.
  exact (proj1 (proj2 comparison_title_always_turn_R) Example.vision
           [0.2; 0.5; 1] [1; 0.9; 1] [] eq_refl).
Defined.

(** ** The oscillator network: [reset] *)

Lemma all_nonneg_true (v : list Q) :
  all_nonneg v = true <-> Forall (fun r => 0 <= r) v.
Proof.
  unfold all_nonneg. rewrite forallb_forall, Forall_forall.
  split; intros H r Hr; apply Qle_bool_iff, H, Hr.
Qed.

Lemma all_nonneg_false (v : list Q) :
  all_nonneg v = false <-> Exists (fun r => r < 0) v.
Proof.
  induction v as [|r v IH]; simpl.
  - split; [discriminate | intros H; inversion H].
  - rewrite andb_false_iff, Exists_cons, <- IH.
    assert (Hr : Qle_bool 0 r = false <-> r < 0).
    { rewrite <- not_true_iff_false, Qle_bool_iff.
      split; [apply Qnot_le_lt | apply Qlt_not_le]. }
    now rewrite Hr.
Qed.

(** C7.  [reset] raises [InvalidStateError] exactly when a supplied
    vector has a length other than N or a supplied amplitude is
    negative, it raises nothing else, a failing call (a phase vector of
    length N-1 among them) leaves the network as it was, and a valid
    call installs exactly the supplied phases and amplitudes. *)
Theorem reset_validates (ip ia : list Q) (n : CPGNetwork) :
  (fst (CPG.reset ip ia n) = Raise InvalidStateError
   <-> (length ip <> CPG.num_oscillators n
        \/ length ia <> CPG.num_oscillators n
        \/ Exists (fun r => r < 0) ia))
  /\ (forall e, fst (CPG.reset ip ia n) = Raise e ->
        e = InvalidStateError /\ snd (CPG.reset ip ia n) = n)
  /\ (S (length ip) = CPG.num_oscillators n ->
        CPG.reset ip ia n = (Raise InvalidStateError, n))
  /\ (length ip = CPG.num_oscillators n ->
        length ia = CPG.num_oscillators n ->
        Forall (fun r => 0 <= r) ia ->
        CPG.reset ip ia n = (Ok tt, with_state ip ia n)
        /\ CPG.get_state (with_state ip ia n) = (ip, ia)).
Proof.
  pose proof (Nat.eqb_spec (length ip) (CPG.num_oscillators n)) as Hp.
  pose proof (Nat.eqb_spec (length ia) (CPG.num_oscillators n)) as Ha.
  pose proof (all_nonneg_true ia) as Ht.
  pose proof (all_nonneg_false ia) as Hf.
  unfold CPG.reset.
  destruct Hp as [Hp | Hp]; destruct Ha as [Ha | Ha];
    destruct (all_nonneg ia) eqn:En; simpl.
  1: { assert (Hall : Forall (fun r => 0 <= r) ia) by now apply Ht.
       split; [|split; [|split]].
       - split; [discriminate|].
         intros [H | [H | H]]; try contradiction.
         exfalso. apply Exists_exists in H. destruct H as [r [Hin Hr]].
         rewrite Forall_forall in Hall. apply (Qlt_not_le _ _ Hr), Hall, Hin.
       - discriminate.
       - lia.
       - intros _ _ _. split; reflexivity. }
  1: { assert (Hex : Exists (fun r => r < 0) ia) by now apply Hf.
       split; [|split; [|split]].
       - split; auto.
       - intros e He. injection He as <-. split; reflexivity.
       - reflexivity.
       - intros _ _ Hall. apply Ht in Hall. congruence. }
  all: split; [split; auto|].
  all: split; [intros e He; injection He as <-; split; reflexivity|].
  all: split; [reflexivity | contradiction].
Qed.

Lemma reset_validates_witness :
  CPG.reset (repeat 0 5) (repeat 1 6) (Example.network 1)
  = (Raise InvalidStateError, Example.network 1)
  /\ CPG.reset [1; 2; 3; 4; 5; 6] (repeat 1 6) (Example.network 1)
     = (Ok tt, with_state [1; 2; 3; 4; 5; 6] (repeat 1 6) (Example.network 1)).
Proof.
  split.
  - apply (proj1 (proj2 (proj2 (reset_validates (repeat 0 5) (repeat 1 6)
                                  (Example.network 1))))).
    reflexivity.
  - apply (proj2 (proj2 (proj2 (reset_validates [1; 2; 3; 4; 5; 6] (repeat 1 6)
                                  (Example.network 1))))).
    + reflexivity.
    + reflexivity.
    + repeat constructor; discriminate.
Defined.

(** ** The oscillator network: [step] *)

Lemma Qmod_range (x m : Q) : 0 < m -> 0 <= Qmod x m /\ Qmod x m < m.
Proof.
  intros Hm. unfold Qmod.
  assert (Hx : x == m * (x / m)) by (field; lra).
  pose proof (Qfloor_le (x / m)) as Hlo.
  pose proof (Qlt_floor (x / m)) as Hhi.
  rewrite inject_Z_plus in Hhi. change (inject_Z 1) with 1 in Hhi.
  set (q := x / m) in *. set (f := inject_Z (Qfloor q)) in *.
  split.
  - assert (m * f <= m * q) by (apply Qmult_le_l; assumption). lra.
  - assert (m * q < m * (f + 1)) by (apply Qmult_lt_l; assumption). lra.
Qed.

Section StepFacts.

Variable sin : Q -> Q.
Variable two_pi : Q.

Lemma step_num_oscillators (n : CPGNetwork) :
  CPG.num_oscillators (CPG.step sin two_pi n) = CPG.num_oscillators n.
Proof. reflexivity. Qed.

Lemma step_state_ok (n : CPGNetwork) :
  0 < two_pi -> CPG.state_ok two_pi (CPG.step sin two_pi n).
Proof.
  intros Hpos. unfold CPG.state_ok. rewrite step_num_oscillators.
  unfold CPG.step. cbn [phases amplitudes with_state].
  rewrite !length_map, !length_seq.
  repeat split.
  - apply Forall_map, Forall_forall. intros i _. now apply Qmod_range.
  - apply Forall_map, Forall_forall. intros i _. apply Q.le_max_l.
Qed.

Lemma control_step_exposes (action : list Q) (self self' : HybridTurningFly.t)
    (st : list Q * list Q) :
  CPG.control_step sin two_pi action self = (Ok st, self') ->
  exists n, st = CPG.get_state (CPG.step sin two_pi n)
            /\ self' = HybridTurningFly.mk (HybridTurningFly.fly_intrinsic_freqs self)
                         (CPG.step sin two_pi n).
Proof.
  unfold CPG.control_step.
  destruct (HybridTurningFly.compute_intrinsic_overrides _ _) as [[freqs amps]|e];
    [|discriminate].
  destruct (CPG.set_intrinsic_amps _ _) as [[u|e] n1]; [|discriminate].
  destruct (CPG.set_intrinsic_freqs _ _) as [[u'|e] n2]; [|discriminate].
  intros H. injection H as <- <-. now exists n2.
Qed.

End StepFacts.

(** C4.  Whatever the network was before, after [step] every phase
    lies in [0, 2π) and every amplitude is at least 0 (and both vectors
    have length N), so [step] preserves the invariant; every state a
    run of control steps exposes satisfies it. *)
Theorem step_wraps_and_clamps (sin : Q -> Q) (two_pi : Q) :
  0 < two_pi ->
  (forall n, CPG.state_ok two_pi (CPG.step sin two_pi n))
  /\ (forall n, CPG.state_ok two_pi n -> CPG.state_ok two_pi (CPG.step sin two_pi n))
  /\ (forall actions self,
        Forall (exposed_ok two_pi) (fst (CPG.run sin two_pi actions self))).
Proof.
  intros Hpos. split; [|split].
  - intros n. now apply step_state_ok.
  - intros n _. now apply step_state_ok.
  - induction actions as [|a rest IH]; intros self; simpl; [constructor|].
    destruct (CPG.control_step sin two_pi a self) as [[st|e] self'] eqn:E;
      [|constructor].
    specialize (IH self').
    destruct (CPG.run sin two_pi rest self') as [traj final]. simpl in *.
    constructor; [|exact IH].
    apply control_step_exposes in E. destruct E as [n [-> _]].
    destruct (step_state_ok sin two_pi n Hpos) as [_ [_ [Hph Ham]]].
    split; assumption.
Qed.

Lemma step_wraps_and_clamps_witness :
  CPG.state_ok (6283185307 # 1000000000)
    (CPG.step (fun x => x - x * x * x / 6) (6283185307 # 1000000000)
       (with_state (repeat 7 6) (repeat 1 6) (Example.network 1))).
Proof.
  apply (proj1 (step_wraps_and_clamps (fun x => x - x * x * x / 6)
                  (6283185307 # 1000000000) eq_refl)).
Defined.

(** ** The oscillator network: determinism *)

Lemma same_up_to_seed_step (sin : Q -> Q) (two_pi : Q) (n1 n2 : CPGNetwork) :
  CPG.same_up_to_seed n1 n2 ->
  CPG.same_up_to_seed (CPG.step sin two_pi n1) (CPG.step sin two_pi n2)
  /\ CPG.get_state (CPG.step sin two_pi n1) = CPG.get_state (CPG.step sin two_pi n2).
Proof.
  destruct n1, n2. unfold CPG.same_up_to_seed; simpl.
  intros [? [? [? [? [? [? [? ?]]]]]]]; subst.
  repeat split.
Qed.

Lemma same_up_to_seed_control_step (sin : Q -> Q) (two_pi : Q) (action : list Q)
    (f1 f2 : HybridTurningFly.t) :
  same_fly_up_to_seed f1 f2 ->
  fst (CPG.control_step sin two_pi action f1) = fst (CPG.control_step sin two_pi action f2)
  /\ same_fly_up_to_seed (snd (CPG.control_step sin two_pi action f1))
       (snd (CPG.control_step sin two_pi action f2)).
Proof.
  destruct f1 as [b1 n1], f2 as [b2 n2]. destruct n1, n2.
  unfold same_fly_up_to_seed, CPG.same_up_to_seed; simpl.
  intros [? [? [? [? [? [? [? [? ?]]]]]]]]; subst.
  unfold CPG.control_step; simpl.
  destruct (HybridTurningFly.compute_intrinsic_overrides _ _) as [[freqs amps]|e];
    [|simpl; repeat split].
  unfold CPG.set_intrinsic_amps, CPG.set_intrinsic_freqs, CPG.num_oscillators; simpl.
  destruct (_ && _); [|simpl; repeat split].
  destruct (Nat.eqb _ _); simpl; repeat split.
Qed.

(** C5.  The controller is deterministic and the seed plays no part in
    stepping: two flies of one configuration and initial state, driven
    by one sequence of steering commands, expose identical trajectories
    and end with the same outcome, even when their seeds differ. *)
Theorem run_deterministic (sin : Q -> Q) (two_pi : Q) (actions : list (list Q))
    (f1 f2 : HybridTurningFly.t) :
  same_fly_up_to_seed f1 f2 ->
  fst (CPG.run sin two_pi actions f1) = fst (CPG.run sin two_pi actions f2)
  /\ fst (snd (CPG.run sin two_pi actions f1)) = fst (snd (CPG.run sin two_pi actions f2))
  /\ same_fly_up_to_seed (snd (snd (CPG.run sin two_pi actions f1)))
       (snd (snd (CPG.run sin two_pi actions f2))).
Proof.
  revert f1 f2. induction actions as [|a rest IH]; intros f1 f2 Hsame; simpl.
  - repeat split; apply Hsame.
  - destruct (same_up_to_seed_control_step sin two_pi a f1 f2 Hsame) as [Hout Hnext].
    destruct (CPG.control_step sin two_pi a f1) as [[st1|e1] f1'];
      destruct (CPG.control_step sin two_pi a f2) as [[st2|e2] f2'];
      simpl in Hout, Hnext; try discriminate.
    + injection Hout as ->.
      specialize (IH f1' f2' Hnext).
      destruct (CPG.run sin two_pi rest f1') as [t1 r1].
      destruct (CPG.run sin two_pi rest f2') as [t2 r2]. simpl in *.
      destruct IH as [-> [-> H3]]. repeat split; apply H3.
    + simpl. injection Hout as ->. repeat split; apply Hnext.
Qed.

Lemma run_deterministic_witness :
  fst (CPG.run (fun x => x - x * x * x / 6) (6283185307 # 1000000000)
         [[1; 1]; [0.2; 1.4]] (Example.fly 1))
  = fst (CPG.run (fun x => x - x * x * x / 6) (6283185307 # 1000000000)
           [[1; 1]; [0.2; 1.4]]
           (HybridTurningFly.mk Example.freqs (with_seed 42 (Example.network 1)))).
Proof.
  apply (run_deterministic (fun x => x - x * x * x / 6) (6283185307 # 1000000000)
           [[1; 1]; [0.2; 1.4]] (Example.fly 1)
           (HybridTurningFly.mk Example.freqs (with_seed 42 (Example.network 1)))).
  repeat split.
Defined.

(** ** The oscillator network: convergence of the amplitudes *)

Lemma amp_update (r dt a R c : Q) :
  dt == 1 # 10000 -> a == 20 -> R == 1 ->
  0 <= Qmax 0 (r + dt * (a * (R - r)))
  /\ 1 - Qmax 0 (r + dt * (a * (R - r))) <= 1
  /\ (1 - r <= c -> 1 - Qmax 0 (r + dt * (a * (R - r))) <= (499 # 500) * c).
Proof.
  intros Hdt Ha HR.
  assert (Hx : r + dt * (a * (R - r)) == (499 # 500) * r + (1 # 500))
    by (rewrite Hdt, Ha, HR; ring).
  pose proof (Q.le_max_l 0 (r + dt * (a * (R - r)))) as H0.
  pose proof (Q.le_max_r 0 (r + dt * (a * (R - r)))) as H1.
  set (m := Qmax 0 (r + dt * (a * (R - r)))) in *.
  rewrite Hx in H1.
  repeat split; try lra. 
Qed.

Section Convergence.
Variable sin : Q -> Q.
Variable two_pi : Q.

Lemma forward_control_step (self : HybridTurningFly.t) :
  convergence_setup self ->
  CPG.control_step sin two_pi [1; 1] self
  = (Ok (CPG.get_state (CPG.step sin two_pi (forward_net self))),
     HybridTurningFly.mk (HybridTurningFly.fly_intrinsic_freqs self)
       (CPG.step sin two_pi (forward_net self))).
Proof.
  intros [HN [Hb _]]. unfold CPG.control_step.
  rewrite positive_steering_keeps_baseline by reflexivity.
  unfold CPG.set_intrinsic_amps. rewrite HN. cbn [length Nat.eqb andb].
  change (all_nonneg [Qabs 1; Qabs 1; Qabs 1; Qabs 1; Qabs 1; Qabs 1]) with true.
  cbv iota.
  unfold CPG.set_intrinsic_freqs.
  change (CPG.num_oscillators (with_intrinsic_amps _ _))
    with (CPG.num_oscillators (HybridTurningFly.cpg_network self)).
  rewrite HN, Hb. reflexivity.
Qed.

Lemma forward_setup (self : HybridTurningFly.t) :
  convergence_setup self ->
  convergence_setup (HybridTurningFly.mk (HybridTurningFly.fly_intrinsic_freqs self)
                       (CPG.step sin two_pi (forward_net self))).
Proof. intros H. exact H. Qed.

Lemma forward_amplitudes (self : HybridTurningFly.t) (c : Q) :
  convergence_setup self ->
  amps_within 1 (amplitudes (CPG.step sin two_pi (forward_net self)))
  /\ (amps_within c (amplitudes (HybridTurningFly.cpg_network self)) ->
      amps_within ((499 # 500) * c) (amplitudes (CPG.step sin two_pi (forward_net self)))).
Proof.
  intros [HN [Hb [Hdt [Hlen Hrate]]]].
  unfold CPG.step. cbn [amplitudes with_state].
  change (CPG.num_oscillators (forward_net self))
    with (CPG.num_oscillators (HybridTurningFly.cpg_network self)).
  rewrite HN. unfold amps_within. rewrite !length_map, !length_seq.
  assert (Hupd : forall i, (i < 6)%nat ->
            let r := nth i (amplitudes (forward_net self)) 0 in
            let x := Qmax 0 (r + timestep (forward_net self) * CPG.dr (forward_net self) i) in
            0 <= x /\ 1 - x <= 1 /\ (forall c, 1 - r <= c -> 1 - x <= (499 # 500) * c)).
  { intros i Hi. unfold CPG.dr.
    cbn [forward_net timestep convergence_coefs intrinsic_amps amplitudes
         with_intrinsic_freqs with_intrinsic_amps].
    assert (Ha : nth i (convergence_coefs (HybridTurningFly.cpg_network self)) 0 == 20).
    { rewrite Forall_forall in Hrate. apply Hrate, nth_In. lia. }
    assert (HR : nth i unit_amps 0 == 1).
    { do 6 (destruct i as [|i]; [reflexivity|]). lia. }
    split; [|split].
    - eapply amp_update; eassumption.
    - eapply amp_update; eassumption.
    - intros c0. eapply amp_update; eassumption. }
  split.
  - split; [reflexivity|]. apply Forall_map, Forall_forall.
    intros i Hi. apply in_seq in Hi. destruct (Hupd i) as [H0 [H1 _]]; [lia|].
    split; assumption.
  - intros [Hl Hc]. split; [reflexivity|]. apply Forall_map, Forall_forall.
    intros i Hi. apply in_seq in Hi. destruct (Hupd i) as [H0 [_ H2]]; [lia|].
    split; [exact H0|]. apply H2.
    rewrite Forall_forall in Hc.
    apply (Hc (nth i (amplitudes (HybridTurningFly.cpg_network self)) 0)).
    apply nth_In. lia.
Qed.
End Convergence.

Lemma amps_within_weaken (c c' : Q) (v : list Q) : c <= c' -> amps_within c v -> amps_within c' v.
Proof.
  intros Hc [Hl Hv]. split; [exact Hl|].
  eapply Forall_impl; [|exact Hv]. simpl. intros r [H0 H1]. split; lra.
Qed.

Lemma decay_succ (c : Q) (k : nat) :
  (499 # 500) * c * (499 # 500) ^ Z.of_nat k == c * (499 # 500) ^ Z.of_nat (S k).
Proof.
  rewrite Nat2Z.inj_succ, <- Z.add_1_r, Qpower_plus by discriminate.
  change ((499 # 500) ^ 1) with (499 # 500). ring.
Qed.

Lemma pow9 (a : Q) : 0 <= a -> a <= 1 # 2 -> a ^ 9 <= 1 # 512.
Proof.
  intros H0 H1. simpl.
  assert (H2 : a * a <= 1 # 4) by nra.
  assert (H2' : 0 <= a * a) by nra.
  set (a2 := a * a) in *.
  assert (H4 : a2 * a2 <= 1 # 16) by nra.
  assert (H4' : 0 <= a2 * a2) by nra.
  set (a4 := a2 * a2) in *.
  assert (H8 : a4 * a4 <= 1 # 256) by nra.
  assert (H8' : 0 <= a4 * a4) by nra.
  set (a8 := a4 * a4) in *.
  nra.
Qed.

Lemma decay_bound : (499 # 500) ^ 4999 <= 1 # 20.
Proof.
  change 4999%Z with (499 + 500 * 9)%Z.
  rewrite Qpower_plus by discriminate.
  rewrite Qpower_mult.
  assert (Ha : (499 # 500) ^ 500 <= 1 # 2) by (apply Qle_bool_iff; now vm_compute).
  assert (Ha0 : 0 <= (499 # 500) ^ 500) by (apply Qpower_0_le; discriminate).
  assert (Hy : (499 # 500) ^ 499 <= 1) by (apply Qle_bool_iff; now vm_compute).
  assert (Hy0 : 0 <= (499 # 500) ^ 499) by (apply Qpower_0_le; discriminate).
  pose proof (pow9 _ Ha0 Ha) as Hx.
  assert (Hx0 : 0 <= ((499 # 500) ^ 500) ^ 9) by (apply Qpower_0_le; exact Ha0).
  set (x := ((499 # 500) ^ 500) ^ 9) in *.
  set (y := (499 # 500) ^ 499) in *.
  clearbody x y. clear Ha Ha0.
  assert (H : 0 <= (1 - y) * x) by (apply Qmult_le_0_compat; lra).
  lra.
Qed.

Section ConvergenceRun.
Variable sin : Q -> Q.
Variable two_pi : Q.

Lemma run_forward (k : nat) :
  forall (self : HybridTurningFly.t) (c : Q),
    convergence_setup self ->
    amps_within c (amplitudes (HybridTurningFly.cpg_network self)) ->
    exists traj self',
      CPG.run sin two_pi (repeat [1; 1] k) self = (traj, (Ok tt, self'))
      /\ length traj = k
      /\ convergence_setup self'
      /\ amps_within (c * (499 # 500) ^ Z.of_nat k)
           (amplitudes (HybridTurningFly.cpg_network self'))
      /\ intrinsic_amps (HybridTurningFly.cpg_network self')
         = match k with
           | O => intrinsic_amps (HybridTurningFly.cpg_network self)
           | S _ => unit_amps
           end.
Proof.
  induction k as [|k IH]; intros self c Hset Hc.
  - exists [], self. repeat split; try apply Hset; try apply Hc.
    destruct Hc as [_ Hc]. eapply Forall_impl; [|exact Hc].
    simpl. intros r [H0 H1]. split; [exact H0|].
    change ((499 # 500) ^ Z.of_nat 0) with 1. lra.
  - cbn [repeat CPG.run]. rewrite forward_control_step by exact Hset.
    destruct (forward_amplitudes sin two_pi self c Hset) as [_ Hnext].
    destruct (IH _ ((499 # 500) * c) (forward_setup sin two_pi self Hset) (Hnext Hc))
      as [traj [self' [Hrun [Hlen [Hset' [Hc' Hamps]]]]]].
    rewrite Hrun. eexists; exists self'.
    split; [reflexivity|]. split; [simpl; now rewrite Hlen|]. split; [exact Hset'|].
    split.
    + eapply amps_within_weaken; [|exact Hc'].
      rewrite decay_succ. apply Qle_refl.
    + rewrite Hamps. destruct k; reflexivity.
Qed.
End ConvergenceRun.

Lemma close_to_target (e r : Q) : e <= 1 # 20 -> 1 - r <= 1 * e -> 0.95 * 1 <= r.
Proof. intros He Hr. lra. Qed.

(** C8.  With the timestep 1e-4 s and the convergence rate 20 /s on each
    of the six oscillators, and the command [1, 1] written before each
    of 5000 consecutive steps (which sets every intrinsic amplitude to
    1), the run succeeds and every amplitude after the 5000th step is
    at least 0.95 times its target 1, from any initial state. *)
Theorem amplitudes_converge (sin : Q -> Q) (two_pi : Q) (self : HybridTurningFly.t) :
  convergence_setup self ->
  exists traj self',
    CPG.run sin two_pi (repeat [1; 1] (Z.to_nat 5000)) self = (traj, (Ok tt, self'))
    /\ length traj = Z.to_nat 5000
    /\ intrinsic_amps (HybridTurningFly.cpg_network self') = [1; 1; 1; 1; 1; 1]
    /\ length (amplitudes (HybridTurningFly.cpg_network self')) = 6%nat
    /\ Forall (fun r => 0.95 * 1 <= r) (amplitudes (HybridTurningFly.cpg_network self')).
Proof.
  intros Hset.
  change (Z.to_nat 5000) with (S (Z.to_nat 4999)).
  cbn [repeat CPG.run]. rewrite forward_control_step by exact Hset.
  destruct (forward_amplitudes sin two_pi self 1 Hset) as [Hone _].
  destruct (run_forward sin two_pi (Z.to_nat 4999) _ 1
              (forward_setup sin two_pi self Hset) Hone)
    as [traj [self' [Hrun [Hlen [_ [[Hl Hc] Hamps]]]]]].
  rewrite Hrun. eexists; exists self'.
  split; [reflexivity|]. split; [simpl; now rewrite Hlen|].
  split; [rewrite Hamps; reflexivity|]. split; [exact Hl|].
  rewrite Z2Nat.id in Hc by lia.
  eapply Forall_impl; [|exact Hc]. simpl. intros r [_ Hr].
  exact (close_to_target _ r decay_bound Hr).
Qed.

Lemma amplitudes_converge_witness :
  exists traj self',
    CPG.run (fun x => x - x * x * x / 6) (6283185307 # 1000000000)
      (repeat [1; 1] (Z.to_nat 5000)) (Example.fly 1) = (traj, (Ok tt, self'))
    /\ length traj = Z.to_nat 5000
    /\ intrinsic_amps (HybridTurningFly.cpg_network self') = [1; 1; 1; 1; 1; 1]
    /\ length (amplitudes (HybridTurningFly.cpg_network self')) = 6%nat
    /\ Forall (fun r => 0.95 * 1 <= r) (amplitudes (HybridTurningFly.cpg_network self')).
Proof.
  apply (amplitudes_converge (fun x => x - x * x * x / 6) (6283185307 # 1000000000)
           (Example.fly 1)).
  repeat split; try reflexivity. repeat constructor.
Defined.

(** ** The turning update on arbitrary commands *)

Lemma compute_intrinsic_overrides_long (base : list Q) (a0 a1 : Q) (rest : list Q) :
  HybridTurningFly.compute_intrinsic_overrides base (a0 :: a1 :: rest)
  = Ok (map (spec_frequency a0) (firstn 3 base) ++ map (spec_frequency a1) (skipn 3 base),
        repeat_abs (a0 :: a1 :: rest)).
Proof.
  unfold HybridTurningFly.compute_intrinsic_overrides; simpl.
  now rewrite imul_from_upto, !direction_scales.
Qed.

Lemma Qabs_spec_frequency (d x : Q) : Qabs (spec_frequency d x) = Qabs x.
Proof.
  unfold spec_frequency. destruct (Qgtb d 0); [reflexivity | apply Qabs_opp_eq].
Qed.

Lemma repeat_abs_length (action : list Q) :
  length (repeat_abs action) = (3 * length action)%nat.
Proof.
  unfold repeat_abs. induction action as [|d action IH]; [reflexivity|].
  cbn [flat_map]. rewrite length_app, IH, repeat_length. simpl. lia.
Qed.

Lemma repeat_abs_nonneg (action : list Q) : Forall (fun a => 0 <= a) (repeat_abs action).
Proof.
  unfold repeat_abs. induction action as [|d action IH]; [constructor|].
  cbn [flat_map repeat app].
  repeat (constructor; [apply Qabs_nonneg|]). exact IH.
Qed.

(** X1.  On every command with at least two entries the update
    succeeds; the frequencies depend on the first two entries only,
    are as many as the baseline frequencies and keep their absolute
    values, while the amplitudes are three per command entry and
    non-negative. *)
Theorem overrides_shape (base : list Q) (a0 a1 : Q) (rest : list Q) :
  exists freqs amps,
    HybridTurningFly.compute_intrinsic_overrides base (a0 :: a1 :: rest) = Ok (freqs, amps)
    /\ HybridTurningFly.compute_intrinsic_overrides base [a0; a1] = Ok (freqs, firstn 6 amps)
    /\ length freqs = length base
    /\ map Qabs freqs = map Qabs base
    /\ length amps = (3 * length (a0 :: a1 :: rest))%nat
    /\ Forall (fun a => 0 <= a) amps.
Proof.
  rewrite compute_intrinsic_overrides_long, compute_intrinsic_overrides_eq.
  do 2 eexists. split; [reflexivity|]. split; [reflexivity|].
  split; [|split; [|split]].
  - rewrite length_app, !length_map, <- length_app. now rewrite firstn_skipn.
  - rewrite map_app, !map_map.
    rewrite (map_ext _ Qabs (Qabs_spec_frequency a0)).
    rewrite (map_ext _ Qabs (Qabs_spec_frequency a1)).
    now rewrite <- map_app, firstn_skipn.
  - apply repeat_abs_length.
  - apply repeat_abs_nonneg.
Qed.

Lemma short_command_raises (base action : list Q) :
  (length action < 2)%nat ->
  HybridTurningFly.compute_intrinsic_overrides base action = Raise IndexError.
Proof.
  intros H. destruct action as [|a0 [|a1 rest]]; simpl in H; try lia; reflexivity.
Qed.

Lemma modulate_all_app (h1 h2 : list (list Q)) (self self' : HybridTurningFly.t) :
  HybridTurningFly.modulate_all h1 self = (Ok tt, self') ->
  HybridTurningFly.modulate_all (h1 ++ h2) self = HybridTurningFly.modulate_all h2 self'.
Proof.
  revert self. induction h1 as [|a h1 IH]; intros self; simpl.
  - intros H. now injection H as ->.
  - destruct (HybridTurningFly.modulate a self) as [[u|e] s1]; [apply IH | discriminate].
Qed.

(** X2.  A command with fewer than two entries raises [IndexError] and
    leaves the fly as it was; in a run of control steps the first such
    command stops the run in the state the earlier commands produced. *)
Theorem short_command_rejected
    (action : list Q) (history rest : list (list Q)) (self self' : HybridTurningFly.t) :
  (length action < 2)%nat ->
  HybridTurningFly.modulate_all history self = (Ok tt, self') ->
  HybridTurningFly.modulate action self = (Raise IndexError, self)
  /\ HybridTurningFly.modulate_all (history ++ action :: rest) self
     = (Raise IndexError, self').
Proof.
  intros Hshort Hrun.
  assert (Hmod : forall s, HybridTurningFly.modulate action s = (Raise IndexError, s)).
  { intros s. unfold HybridTurningFly.modulate.
    now rewrite short_command_raises. }
  split; [apply Hmod|].
  rewrite (modulate_all_app _ _ _ _ Hrun). simpl. now rewrite Hmod.
Qed.

Lemma short_command_rejected_witness :
  HybridTurningFly.modulate [1.4] (Example.fly 2) = (Raise IndexError, Example.fly 2)
  /\ HybridTurningFly.modulate_all ([[1; 1]] ++ [1.4] :: [[0.2; 1.4]]) (Example.fly 2)
     = (Raise IndexError, snd (HybridTurningFly.modulate [1; 1] (Example.fly 2))).
Proof.
  apply (short_command_rejected [1.4] [[1; 1]] [[0.2; 1.4]] (Example.fly 2)).
  - simpl. lia.
  - reflexivity.
Defined.

Lemma Qgtb_scale (c d : Q) : 0 < c -> Qgtb (c * d) 0 = Qgtb d 0.
Proof.
  intros Hc. destruct (Qgtb d 0) eqn:E.
  - apply Qgtb_true in E. apply Qgtb_true. nra.
  - apply Qgtb_false in E. apply Qgtb_false. nra.
Qed.

Lemma Qabs_scale (c d : Q) : 0 < c -> Qabs (c * d) == c * Qabs d.
Proof.
  intros Hc. rewrite Qabs_Qmult. rewrite (Qabs_pos c) by lra. reflexivity.
Qed.

(** X3.  Scaling a command by a positive factor leaves the intrinsic
    frequencies as they are and scales every intrinsic amplitude by
    that factor: the magnitude of the descending signal is a gain, its
    sign a direction. *)
Theorem positive_scaling (base : list Q) (c dl dr : Q) :
  0 < c ->
  exists freqs amps amps',
    HybridTurningFly.compute_intrinsic_overrides base [dl; dr] = Ok (freqs, amps)
    /\ HybridTurningFly.compute_intrinsic_overrides base [c * dl; c * dr] = Ok (freqs, amps')
    /\ Forall2 (fun a' a => a' == c * a) amps' amps.
Proof.
  intros Hc. rewrite !compute_intrinsic_overrides_eq.
  unfold spec_frequency. rewrite !Qgtb_scale by exact Hc.
  do 3 eexists. split; [reflexivity|]. split; [reflexivity|].
  repeat constructor; now apply Qabs_scale.
Qed.

Lemma positive_scaling_witness :
  exists freqs amps amps',
    HybridTurningFly.compute_intrinsic_overrides Example.freqs [0.2; - (1.4)]
    = Ok (freqs, amps)
    /\ HybridTurningFly.compute_intrinsic_overrides Example.freqs
         [3 * 0.2; 3 * - (1.4)] = Ok (freqs, amps')
    /\ Forall2 (fun a' a => a' == 3 * a) amps' amps.
Proof.
  apply (positive_scaling Example.freqs 3 0.2 (- (1.4))). reflexivity.
Defined.

(** ** The square wave of the zig-zag demo *)

Lemma Qfloor_unique (q : Q) (z : Z) :
  inject_Z z <= q -> q < inject_Z (z + 1) -> Qfloor q = z.
Proof.
  intros Hlo Hhi.
  pose proof (Qfloor_le q) as Flo. pose proof (Qlt_floor q) as Fhi.
  assert (H1 : inject_Z z < inject_Z (Qfloor q + 1)) by lra.
  assert (H2 : inject_Z (Qfloor q) < inject_Z (z + 1)) by lra.
  rewrite <- Zlt_Qlt in H1, H2. lia.
Qed.

Lemma Qmod_window (y m : Q) (z : Z) :
  0 < m -> inject_Z z * m <= y -> y < inject_Z (z + 1) * m ->
  Qmod y m == y - inject_Z z * m.
Proof.
  intros Hm Hlo Hhi. unfold Qmod.
  rewrite (Qfloor_unique (y / m) z).
  - ring.
  - apply Qle_shift_div_l; assumption.
  - apply Qlt_shift_div_r; assumption.
Qed.

Lemma Qmod_eq_compat (x y m : Q) : x == y -> Qmod x m == Qmod y m.
Proof.
  intros H. unfold Qmod.
  assert (F : Qfloor (x / m) = Qfloor (y / m)).
  { apply Qfloor_comp. apply Qdiv_comp; [exact H | reflexivity]. }
  rewrite F. lra.
Qed.

Lemma Qmod_shift (y m : Q) (k : Z) : 0 < m -> Qmod (y + inject_Z k * m) m == Qmod y m.
Proof.
  intros Hm.
  pose proof (Qfloor_le (y / m)) as Flo. pose proof (Qlt_floor (y / m)) as Fhi.
  assert (Hy : y == m * (y / m)) by (field; lra).
  set (f := Qfloor (y / m)) in *.
  assert (Hlo : inject_Z f * m <= y).
  { set (q := y / m) in *. clearbody q.
    assert (inject_Z f * m <= q * m) by (apply Qmult_le_r; assumption). lra. }
  assert (Hhi : y < inject_Z (f + 1) * m).
  { set (q := y / m) in *. clearbody q.
    assert (H : q * m < inject_Z (f + 1) * m) by (apply Qmult_lt_r; assumption).
    rewrite Hy, (Qmult_comm m q). exact H. }
  rewrite (Qmod_window y m f Hm Hlo Hhi).
  rewrite (Qmod_window (y + inject_Z k * m) m (f + k) Hm).
  - rewrite inject_Z_plus. ring.
  - clearbody f. rewrite inject_Z_plus.
    set (a := inject_Z f) in *. set (b := inject_Z k) in *. clearbody a b. lra.
  - clearbody f. rewrite !inject_Z_plus. rewrite inject_Z_plus in Hhi.
    set (a := inject_Z f) in *. set (b := inject_Z k) in *.
    change (inject_Z 1) with 1 in *. clearbody a b. lra.
Qed.

Lemma Qgtb_eq_compat (x y c : Q) : x == y -> Qgtb x c = Qgtb y c.
Proof.
  intros H. unfold Qgtb. f_equal.
  destruct (Qle_bool x c) eqn:E1; destruct (Qle_bool y c) eqn:E2; try reflexivity.
  - apply Qle_bool_iff in E1. rewrite H in E1. apply Qle_bool_iff in E1. congruence.
  - apply Qle_bool_iff in E2. rewrite <- H in E2. apply Qle_bool_iff in E2. congruence.
Qed.

Lemma right_at_high (x : Q) :
  (ZigZag.right_at x == 1.4 <-> 0.4 < Qmod (x - 0.2) 0.8)
  /\ (ZigZag.right_at x == 0.2 <-> Qmod (x - 0.2) 0.8 <= 0.4).
Proof.
  unfold ZigZag.right_at.
  destruct (Qgtb (Qmod (x - 0.2) 0.8) 0.4) eqn:E.
  - pose proof (proj1 (Qgtb_true _ _) E) as H.
    split; split; intros H'; try assumption; try reflexivity.
    + exfalso. revert H'. now vm_compute.
    + exfalso. lra.
  - pose proof (proj1 (Qgtb_false _ _) E) as H.
    split; split; intros H'; try assumption; try reflexivity.
    + exfalso. revert H'. now vm_compute.
    + exfalso. lra.
Qed.

(** X4.  The right descending signal is a square wave of period 0.8 s:
    shifting the time by any whole number of periods leaves it
    unchanged, and within the 1.2 s of the demo it is high (1.4)
    exactly before 0.2 s and strictly between 0.6 s and 1.0 s, and low
    (0.2) otherwise. *)
Theorem square_wave_shape (x : Q) (k : Z) :
  ZigZag.right_at (x + inject_Z k * 0.8) = ZigZag.right_at x
  /\ (0 <= x -> x < 1.2 ->
      (ZigZag.right_at x == 1.4 <-> x < 0.2 \/ (0.6 < x /\ x < 1))
      /\ (ZigZag.right_at x == 0.2 <-> (0.2 <= x /\ x <= 0.6) \/ 1 <= x)).
Proof.
  split.
  - unfold ZigZag.right_at.
    assert (E : Qgtb (Qmod (x + inject_Z k * 0.8 - 0.2) 0.8) 0.4
                = Qgtb (Qmod (x - 0.2) 0.8) 0.4).
    { apply Qgtb_eq_compat.
      rewrite <- (Qmod_shift (x - 0.2) 0.8 k) by reflexivity.
      apply Qmod_eq_compat. ring. }
    now rewrite E.
  - intros H0 H1.
    destruct (right_at_high x) as [Hhigh Hlow]. rewrite Hhigh, Hlow.
    destruct (Qlt_le_dec x 0.2) as [Ha | Ha].
    + assert (E : Qmod (x - 0.2) 0.8 == x - 0.2 - (- (1)) * 0.8).
      { apply (Qmod_window (x - 0.2) 0.8 (-1)); [reflexivity | |].
        - change (inject_Z (-1)) with (- (1)). lra.
        - change (inject_Z ((-1) + 1)) with ((- (1)) + 1). lra. }
      rewrite E. split; split; intros H; lra.
    + destruct (Qlt_le_dec x 1) as [Hb | Hb].
      * assert (E : Qmod (x - 0.2) 0.8 == x - 0.2 - 0 * 0.8).
        { apply (Qmod_window (x - 0.2) 0.8 0); [reflexivity | |].
          - change (inject_Z 0) with 0. lra.
          - change (inject_Z (0 + 1)) with (0 + 1). lra. }
        rewrite E. split; split; intros H; lra.
      * assert (E : Qmod (x - 0.2) 0.8 == x - 0.2 - 1 * 0.8).
        { apply (Qmod_window (x - 0.2) 0.8 1); [reflexivity | |].
          - change (inject_Z 1) with 1. lra.
          - change (inject_Z (1 + 1)) with (1 + 1). lra. }
        rewrite E. split; split; intros H; lra.
Qed.

Lemma square_wave_shape_witness :
  (ZigZag.right_at 0.7 == 1.4 <-> 0.7 < 0.2 \/ (0.6 < 0.7 /\ 0.7 < 1))
  /\ (ZigZag.right_at 0.7 == 0.2 <-> (0.2 <= 0.7 /\ 0.7 <= 0.6) \/ 1 <= 0.7).
Proof.
  apply (proj2 (square_wave_shape 0.7 0)); [discriminate | reflexivity].
Defined.

(** ** Counting dimmed ommatidia *)

Lemma Qltb_true (x y : Q) : Following.Qltb x y = true <-> x < y.
Proof.
  unfold Following.Qltb. rewrite negb_true_iff, <- not_true_iff_false, Qle_bool_iff.
  split; [apply Qnot_le_lt | apply Qlt_not_le].
Qed.

Lemma fold_max_lt (cs : list Q) (c thr : Q) :
  fold_left Qmax cs c < thr <-> c < thr /\ Forall (fun x => x < thr) cs.
Proof.
  revert c. induction cs as [|x cs IH]; intros c; simpl.
  - split; [intros H; split; [exact H | constructor] | intros [H _]; exact H].
  - rewrite IH, Q.max_lub_lt_iff. split.
    + intros [[Hc Hx] Hcs]. split; [exact Hc | constructor; assumption].
    + intros [Hc Hall]. inversion Hall; subst. repeat split; assumption.
Qed.

Lemma max_channels_below (channels : list Q) (m thr : Q) :
  Following.max_channels channels = Ok m ->
  Following.Qltb m thr = forallb (fun c => Following.Qltb c thr) channels.
Proof.
  destruct channels as [|c cs]; [discriminate|]. simpl. intros H. injection H as <-.
  apply eq_true_iff_eq.
  change (Following.Qltb c thr && forallb (fun c0 => Following.Qltb c0 thr) cs)
    with (forallb (fun c0 => Following.Qltb c0 thr) (c :: cs)).
  rewrite Qltb_true, forallb_forall, fold_max_lt, <- Forall_forall, Forall_cons_iff.
  split; intros [H1 H2]; (split; [now apply Qltb_true|]).
  - eapply Forall_impl; [|exact H2]. intros a. apply Qltb_true.
  - eapply Forall_impl; [|exact H2]. intros a. apply Qltb_true.
Qed.

(** X5.  Taking the maximum over the channels before the comparison
    with the threshold counts exactly the ommatidia all of whose
    channels read below the threshold. *)
Theorem dimmed_iff_all_channels_below
    (retina : list (list Q)) (readings : list Q) (thr : Q) :
  Following.traverse Following.max_channels retina = Ok readings ->
  Following.count_below thr readings
  = length (filter (forallb (fun c => Following.Qltb c thr)) retina).
Proof.
  unfold Following.count_below. revert readings.
  induction retina as [|channels retina IH]; intros readings; simpl.
  - intros H. now injection H as <-.
  - destruct (Following.max_channels channels) as [m|e] eqn:Em; [|discriminate]. simpl.
    destruct (Following.traverse Following.max_channels retina) as [ms|e];
      [|discriminate]. simpl.
    intros H. injection H as <-. simpl.
    rewrite (max_channels_below channels m thr Em).
    destruct (forallb _ channels); simpl; now rewrite (IH ms eq_refl).
Qed.

Lemma dimmed_iff_all_channels_below_witness :
  Following.count_below Following.threshold [0.2; 0.5; 1]
  = length (filter (forallb (fun c => Following.Qltb c Following.threshold))
              [[0.1; 0.2]; [0.3; 0.5]; [0.9; 1]]).
Proof.
  apply (dimmed_iff_all_channels_below [[0.1; 0.2]; [0.3; 0.5]; [0.9; 1]]). reflexivity.
Defined.

(** X6.  The count of dimmed ommatidia grows with the threshold and
    never exceeds the number of ommatidia; so the threshold 0.5 of the
    following loop counts at most what the threshold 0.75 of the figure
    counts. *)
Theorem count_below_monotone (thr thr' : Q) (row : list Q) :
  thr <= thr' ->
  (Following.count_below thr row <= Following.count_below thr' row)%nat
  /\ (Following.count_below thr' row <= length row)%nat.
Proof.
  intros Hle. unfold Following.count_below. split.
  - induction row as [|x row IH]; simpl; [lia|].
    destruct (Following.Qltb x thr) eqn:E.
    + apply Qltb_true in E.
      assert (E' : Following.Qltb x thr' = true) by (apply Qltb_true; lra).
      rewrite E'. simpl. lia.
    + destruct (Following.Qltb x thr'); simpl; lia.
  - apply filter_length_le.
Qed.

Lemma count_below_monotone_witness :
  Nat.le (Following.count_below 0.5 [0.2; 0.6; 1])
    (Following.count_below Following.threshold [0.2; 0.6; 1])
  /\ Nat.le (Following.count_below Following.threshold [0.2; 0.6; 1]) 3.
Proof.
  apply (count_below_monotone 0.5 Following.threshold [0.2; 0.6; 1]). discriminate.
Defined.

(** ** The following loop *)

Lemma mean_majority (w : list bool) :
  w <> [] -> Qgtb (Follower.mean w) 0.5 = Follower.majority w.
Proof.
  intros Hne. unfold Follower.mean, Follower.majority.
  assert (Hlen : (0 < length w)%nat) by (destruct w; [congruence | simpl; lia]).
  set (c := Follower.count_true w). set (n := length w) in *.
  assert (Hn : 0 < inject_Z (Z.of_nat n)).
  { rewrite <- (Zlt_Qlt 0). lia. }
  apply eq_true_iff_eq. rewrite Qgtb_true, Nat.ltb_lt. split.
  - intros H.
    assert (H' : 0.5 * inject_Z (Z.of_nat n) < inject_Z (Z.of_nat c)).
    { apply (Qmult_lt_r _ _ (/ inject_Z (Z.of_nat n))); [now apply Qinv_lt_0_compat|].
      rewrite <- Qmult_assoc, Qmult_inv_r by lra. rewrite Qmult_1_r. exact H. }
    assert (H2 : inject_Z (Z.of_nat n) < inject_Z (2 * Z.of_nat c)).
    { rewrite inject_Z_mult. change (inject_Z 2) with 2. lra. }
    rewrite <- Zlt_Qlt in H2. lia.
  - intros H. apply Qlt_shift_div_l; [exact Hn|].
    assert (H2 : inject_Z (Z.of_nat n) < inject_Z (2 * Z.of_nat c))
      by (rewrite <- Zlt_Qlt; lia).
    rewrite inject_Z_mult in H2. change (inject_Z 2) with 2 in H2. lra.
Qed.

Lemma last_n_window (P : list bool) (d : nat) :
  length P = S d -> (500 <= d)%nat -> Follower.last_n 500 P = Follower.window P d.
Proof.
  intros Hlen Hd. unfold Follower.last_n, Follower.window.
  rewrite Hlen. replace (S d - 500)%nat with (d - 499)%nat by lia.
  apply nth_ext with (d := false) (d' := false).
  - rewrite length_skipn, length_map, length_seq. lia.
  - intros j Hj. rewrite length_skipn in Hj.
    rewrite nth_skipn.
    rewrite (nth_indep (map (fun j0 => nth j0 P false) (seq (d - 499) 500))
               false (nth 0 P false))
      by (rewrite length_map, length_seq; lia).
    rewrite (map_nth (fun j0 => nth j0 P false)), seq_nth by lia. reflexivity.
Qed.

Lemma window_app (P Q : list bool) (d : nat) :
  (499 <= d < length P)%nat -> Follower.window (P ++ Q) d = Follower.window P d.
Proof.
  intros Hd. unfold Follower.window. apply map_ext_in.
  intros j Hj. apply in_seq in Hj. apply app_nth1. lia.
Qed.

Lemma decide_ok (i : nat) (vision : list (list (list Q))) (st st' : Follower.state) :
  Follower.decide i vision st = Ok st' ->
  exists b,
    Follower.is_left st' = Follower.is_left st ++ [b]
    /\ Follower.action_nuro st'
       = if Nat.ltb 0 i && Nat.eqb (i mod 500) 0
         then if Follower.majority (Follower.last_n 500 (Follower.is_left st ++ [b]))
              then [0.2; 1.4] else [1.4; 0.2]
         else Follower.action_nuro st.
Proof.
  unfold Follower.decide.
  destruct (Following.max_last_axis vision) as [rows|e]; [|discriminate]. simpl.
  destruct (getitem (Follower.activated_ommatidia rows) 0) as [a0|e]; [|discriminate].
  simpl.
  destruct (getitem (Follower.activated_ommatidia rows) 1) as [a1|e]; [|discriminate].
  simpl. intros H. injection H as <-. exists (Nat.ltb a1 a0). simpl.
  split; [reflexivity|].
  unfold Follower.decision_interval.
  rewrite mean_majority; [reflexivity|].
  unfold Follower.last_n. rewrite length_app. simpl.
  intros E. apply (f_equal (@length bool)) in E. rewrite length_skipn, length_app in E.
  simpl in E. lia.
Qed.

(** The counts the loop takes after the maximum over the channels are
    the numbers of dimmed ommatidia of the two retinas. *)
Lemma activated_dimmed (vision : list (list (list Q))) (rows : list (list Q)) :
  Following.max_last_axis vision = Ok rows ->
  Follower.activated_ommatidia rows = map Follower.dimmed vision.
Proof.
  unfold Following.max_last_axis, Follower.activated_ommatidia. revert rows.
  induction vision as [|retina vision IH]; intros rows; simpl.
  - intros H. now injection H as <-.
  - destruct (Following.traverse Following.max_channels retina) as [row|e] eqn:Er;
      [|discriminate]. simpl.
    destruct (Following.traverse (Following.traverse Following.max_channels) vision)
      as [rows'|e]; [|discriminate]. simpl.
    intros H. injection H as <-. simpl. rewrite (IH rows' eq_refl). f_equal.
    clear IH. unfold Following.count_below, Follower.dimmed. revert row Er.
    induction retina as [|channels retina IHr]; intros row; simpl.
    + intros H. now injection H as <-.
    + destruct (Following.max_channels channels) as [m|e] eqn:Em; [|discriminate]. simpl.
      destruct (Following.traverse Following.max_channels retina) as [ms|e];
        [|discriminate]. simpl.
      intros H. injection H as <-. simpl.
      rewrite (max_channels_below channels m 0.5 Em).
      destruct (forallb _ channels); simpl; now rewrite (IHr ms eq_refl).
Qed.

(** The bit the loop appends is what the frame shows. *)
Lemma decide_classifies (i : nat) (vision : list (list (list Q)))
    (st st' : Follower.state) :
  Follower.decide i vision st = Ok st' ->
  Follower.is_left st' = Follower.is_left st ++ [Follower.left_dimmer vision].
Proof.
  unfold Follower.decide.
  destruct (Following.max_last_axis vision) as [rows|e] eqn:Em; [|discriminate].
  cbn [bind]. cbv zeta. rewrite (activated_dimmed vision rows Em). clear Em.
  destruct vision as [|retina_l [|retina_r vision]]; try discriminate.
  simpl. intros H. now injection H as <-.
Qed.

Section FollowFacts.

Variable Sim : Type.
Variable sim_step : Sim -> list Q -> list Q -> list (list (list Q)) * Sim.

Lemma follow_classifies (signals : list (list Q)) :
  forall i obs sim st acts hist final,
    Follower.follow Sim sim_step i signals obs sim st = Ok (acts, hist, final) ->
    Follower.is_left final
    = Follower.is_left st
      ++ map Follower.left_dimmer (Follower.frames obs hist (length signals)).
Proof.
  unfold Follower.frames.
  induction signals as [|a rest IH]; intros i obs sim st acts hist final Hrun.
  - simpl in Hrun. injection Hrun as <- <- <-. simpl. now rewrite app_nil_r.
  - simpl in Hrun.
    destruct (Follower.decide i obs st) as [st'|e] eqn:Ed; [|discriminate].
    simpl in Hrun.
    destruct (sim_step sim (Follower.action_nuro st') a) as [obs' sim'].
    destruct (Follower.follow Sim sim_step (S i) rest obs' sim' st')
      as [[[acts' hist'] final']|e] eqn:Er; [|discriminate].
    simpl in Hrun. injection Hrun as <- <- <-.
    rewrite (IH _ _ _ _ _ _ _ Er), (decide_classifies i obs st st' Ed), <- app_assoc.
    reflexivity.
Qed.

Lemma follow_observations (signals : list (list Q)) :
  forall i obs sim st acts hist final,
    Follower.follow Sim sim_step i signals obs sim st = Ok (acts, hist, final) ->
    hist = Follower.observations Sim sim_step sim acts signals.
Proof.
  induction signals as [|a rest IH]; intros i obs sim st acts hist final Hrun.
  - simpl in Hrun. now injection Hrun as <- <- <-.
  - simpl in Hrun.
    destruct (Follower.decide i obs st) as [st'|e] eqn:Ed; [|discriminate].
    simpl in Hrun.
    destruct (sim_step sim (Follower.action_nuro st') a) as [obs' sim'] eqn:Es.
    destruct (Follower.follow Sim sim_step (S i) rest obs' sim' st')
      as [[[acts' hist'] final']|e] eqn:Er; [|discriminate].
    simpl in Hrun. injection Hrun as <- <- <-.
    simpl. rewrite Es. f_equal. exact (IH _ _ _ _ _ _ _ Er).
Qed.

Lemma follow_invariant (signals : list (list Q)) :
  forall i obs sim st acts hist final,
    Follower.follow Sim sim_step i signals obs sim st = Ok (acts, hist, final) ->
    length (Follower.is_left st) = i ->
    exists new,
      Follower.is_left final = Follower.is_left st ++ new
      /\ length new = length signals
      /\ length acts = length signals
      /\ length hist = length signals
      /\ forall j, (j < length signals)%nat ->
           nth j acts []
           = let d := (500 * ((i + j) / 500))%nat in
             if Nat.leb i d && Nat.ltb 0 d
             then if Follower.majority (Follower.window (Follower.is_left final) d)
                  then [0.2; 1.4] else [1.4; 0.2]
             else Follower.action_nuro st.
Proof.
  induction signals as [|a rest IH]; intros i obs sim st acts hist final Hrun Hlen.
  - simpl in Hrun. injection Hrun as <- <- <-. exists [].
    rewrite app_nil_r. repeat split. intros j Hj. simpl in Hj. lia.
  - simpl in Hrun.
    destruct (Follower.decide i obs st) as [st'|e] eqn:Ed; [|discriminate].
    simpl in Hrun.
    destruct (sim_step sim (Follower.action_nuro st') a) as [obs' sim'].
    destruct (Follower.follow Sim sim_step (S i) rest obs' sim' st')
      as [[[acts' hist'] final']|e] eqn:Er; [|discriminate].
    simpl in Hrun. injection Hrun as <- <- <-.
    destruct (decide_ok i obs st st' Ed) as [b [HL Hact]].
    assert (Hlen' : length (Follower.is_left st') = S i)
      by (rewrite HL, length_app; simpl; lia).
    destruct (IH (S i) obs' sim' st' acts' hist' final' Er Hlen')
      as [new [Hfin [Hnew [Hacts [Hhist Hnth]]]]].
    exists (b :: new). rewrite Hfin, HL, <- app_assoc. cbn [app length].
    split; [reflexivity|]. split; [lia|]. split; [lia|]. split; [lia|].
    assert (Hvote : (0 < i)%nat -> (i mod 500 = 0)%nat ->
              Follower.majority (Follower.last_n 500 (Follower.is_left st ++ [b]))
              = Follower.majority
                  (Follower.window (Follower.is_left st ++ b :: new) i)).
    { intros Hpos Hmod.
      assert (500 <= i)%nat.
      { pose proof (Nat.div_mod_eq i 500). destruct (i / 500)%nat eqn:Q0; lia. }
      rewrite (last_n_window _ i) by (rewrite ?length_app; simpl; lia).
      change (Follower.is_left st ++ b :: new)
        with (Follower.is_left st ++ [b] ++ new).
      rewrite app_assoc.
      rewrite (window_app (Follower.is_left st ++ [b]) new)
        by (rewrite length_app; simpl; lia).
      reflexivity. }
    intros j Hj. cbv zeta.
    pose proof (Nat.div_mod_eq (i + j) 500) as Hdm.
    pose proof (Nat.mod_upper_bound (i + j) 500 ltac:(lia)) as Hub.
    pose proof (Nat.div_mod_eq i 500) as Hdi.
    pose proof (Nat.mod_upper_bound i 500 ltac:(lia)) as Hui.
    destruct j as [|j].
    + cbn [nth]. rewrite Nat.add_0_r. rewrite Hact.
      destruct (Nat.ltb_spec 0 i) as [Hpos|Hpos];
        destruct (Nat.eqb_spec (i mod 500) 0) as [Hmod|Hmod]; cbn [andb].
      * assert (Hd : (500 * (i / 500) = i)%nat) by lia. rewrite Hd.
        rewrite Nat.leb_refl. cbn [andb].
        destruct (Nat.ltb_spec 0 i); [|lia].
        now rewrite Hvote.
      * destruct (Nat.leb_spec i (500 * (i / 500))); [lia|]. reflexivity.
      * destruct i; [reflexivity | lia].
      * lia.
    + cbn [nth]. rewrite (Hnth j) by (cbn [length] in Hj; lia). cbv zeta.
      replace (S i + j)%nat with (i + S j)%nat by lia.
      remember (500 * ((i + S j) / 500))%nat as d eqn:Edd.
      rewrite Hfin, HL, <- app_assoc. cbn [app].
      destruct (Nat.leb_spec (S i) d) as [H1|H1].
      * destruct (Nat.leb_spec i d); [|lia].
        destruct (Nat.ltb_spec 0 d); [cbn [andb]; reflexivity | lia].
      * cbn [andb]. rewrite Hact.
        destruct (Nat.leb_spec i d) as [H2|H2]; cbn [andb].
        -- assert (Hdi' : d = i) by lia.
           destruct (Nat.ltb_spec 0 d) as [H3|H3].
           ++ assert (Hm : (i mod 500 = 0)%nat) by lia.
              rewrite Hm. destruct (Nat.ltb_spec 0 i); [|lia]. cbn [andb Nat.eqb].
              rewrite Hvote by lia. now rewrite Hdi'.
           ++ destruct i; [reflexivity | lia].
        -- destruct (Nat.ltb_spec 0 i) as [H3|H3]; [|reflexivity].
           destruct (Nat.eqb_spec (i mod 500) 0) as [H4|H4]; [|reflexivity].
           exfalso.
           assert (Hk : (i / 500 <= (i + S j) / 500)%nat)
             by (apply Nat.Div0.div_le_mono; lia).
           lia.
Qed.

End FollowFacts.

Lemma follow_command_at (Sim : Type)
    (sim_step : Sim -> list Q -> list Q -> list (list (list Q)) * Sim)
    (signals : list (list Q)) (obs : list (list (list Q))) (sim : Sim)
    (acts : list (list Q)) (hist : list (list (list (list Q))))
    (final : Follower.state) (i : nat) :
  Follower.follow_mcfly Sim sim_step signals obs sim = Ok (acts, hist, final) ->
  (i < length signals)%nat ->
  nth i acts [] = Follower.command_at (Follower.is_left final) i.
Proof.
  intros Hrun Hi.
  destruct (follow_invariant Sim sim_step signals 0 obs sim _ acts hist final Hrun eq_refl)
    as [new [_ [_ [_ [_ Hnth]]]]].
  rewrite (Hnth i Hi). cbv zeta. cbn [Nat.add Nat.leb andb Follower.action_nuro].
  unfold Follower.command_at.
  pose proof (Nat.div_mod_eq i 500) as Hdm.
  pose proof (Nat.mod_upper_bound i 500 ltac:(lia)) as Hub.
  remember (500 * (i / 500))%nat as d eqn:Ed.
  destruct (Nat.ltb_spec 0 d); destruct (Nat.ltb_spec i 500); try reflexivity; lia.
Qed.

(** X8.  Whatever the simulation returns, when the following loop
    completes it has passed one command for Nuro per row of the
    descending signals and classified one frame per row: the
    observation it started from and the observations of the steps
    before the last, each step's observation being what the simulation
    returned for the commands of that step.  The bit recorded for a
    frame says whether the frame has strictly more ommatidia with all
    channels below 0.5 on retina 0 than on retina 1.  The command at
    step [i] is [0, 0] before step 500, and from then on the vote taken
    at the last multiple [d] of 500: [0.2, 1.4] when strictly more than
    half of the 500 frames [d - 499 .. d] have more such ommatidia on
    retina 0, [1.4, 0.2] otherwise (a tie included).  Frame 0 takes
    part in no vote. *)
Theorem follower_commands (Sim : Type)
    (sim_step : Sim -> list Q -> list Q -> list (list (list Q)) * Sim)
    (signals : list (list Q)) (obs : list (list (list Q))) (sim : Sim)
    (acts : list (list Q)) (hist : list (list (list (list Q))))
    (final : Follower.state) :
  Follower.follow_mcfly Sim sim_step signals obs sim = Ok (acts, hist, final) ->
  length acts = length signals
  /\ length hist = length signals
  /\ length (Follower.is_left final) = length signals
  /\ hist = Follower.observations Sim sim_step sim acts signals
  /\ Follower.is_left final
     = map Follower.left_dimmer (Follower.frames obs hist (length signals))
  /\ forall i, (i < length signals)%nat ->
       nth i acts []
       = Follower.command_at
           (map Follower.left_dimmer (Follower.frames obs hist (length signals))) i.
Proof.
  intros Hrun.
  destruct (follow_invariant Sim sim_step signals 0 obs sim _ acts hist final Hrun eq_refl)
    as [new [Hfin [Hnew [Hacts [Hhist _]]]]].
  cbn [Follower.is_left app] in Hfin.
  pose proof (follow_classifies Sim sim_step signals 0 obs sim _ acts hist final Hrun)
    as Hcls.
  cbn [Follower.is_left app] in Hcls.
  split; [exact Hacts|]. split; [exact Hhist|]. split; [now rewrite Hfin|].
  split; [exact (follow_observations Sim sim_step signals 0 obs sim _ acts hist final Hrun)|].
  split; [exact Hcls|].
  intros i Hi. rewrite <- Hcls.
  now apply (follow_command_at Sim sim_step signals obs sim acts hist final).
Qed.

Lemma follower_commands_witness :
  exists acts hist final,
    Follower.follow_mcfly nat FollowerExample.sim_step FollowerExample.signals
      Example.vision 0%nat = Ok (acts, hist, final)
    /\ length acts = length FollowerExample.signals
    /\ Follower.is_left final
       = map Follower.left_dimmer
           (Follower.frames Example.vision hist (length FollowerExample.signals))
    /\ nth 700 acts []
       = Follower.command_at
           (map Follower.left_dimmer
              (Follower.frames Example.vision hist (length FollowerExample.signals))) 700.
Proof.
  destruct (Follower.follow_mcfly nat FollowerExample.sim_step FollowerExample.signals
              Example.vision 0%nat) as [[[acts hist] final]|e] eqn:E;
    [|vm_compute in E; discriminate].
  exists acts, hist, final. split; [reflexivity|].
  destruct (follower_commands nat FollowerExample.sim_step FollowerExample.signals
              Example.vision 0%nat acts hist final E) as [H1 [_ [_ [_ [H5 H6]]]]].
  split; [exact H1|]. split; [exact H5|]. apply H6. vm_compute. lia.
Defined.

(** On the stand-in simulation Nuro stands still up to step 499, turns
    left from step 500 (all 500 frames of the vote saw the target on the
    left) and right from step 1000 (only 100 of 500 did). *)
Example follower_example_run :
  exists acts hist final,
    Follower.follow_mcfly nat FollowerExample.sim_step FollowerExample.signals
      Example.vision 0%nat = Ok (acts, hist, final)
    /\ map (fun i => nth i acts []) [0; 499; 500; 999; 1000]%nat
       = [[0; 0]; [0; 0]; [0.2; 1.4]; [0.2; 1.4]; [1.4; 0.2]].
Proof.
  destruct (Follower.follow_mcfly nat FollowerExample.sim_step FollowerExample.signals
              Example.vision 0%nat) as [[[acts hist] final]|e] eqn:E;
    [|vm_compute in E; discriminate].
  exists acts, hist, final. split; [reflexivity|].
  apply (f_equal (fun r => match r with
                           | Ok (a, _, _) => map (fun i => nth i a []) [0; 499; 500; 999; 1000]%nat
                           | Raise _ => []
                           end)) in E.
  vm_compute in E. symmetry. exact E.
Qed.

Lemma command_at_block (L : list bool) (i : nat) :
  (500 <= i)%nat ->
  Follower.command_at L i = Follower.command_at L (500 * (i / 500))
  /\ (Follower.command_at L i = [0.2; 1.4] \/ Follower.command_at L i = [1.4; 0.2]).
Proof.
  intros Hi. unfold Follower.command_at.
  pose proof (Nat.div_mod_eq i 500) as Hdm.
  pose proof (Nat.mod_upper_bound i 500 ltac:(lia)) as Hub.
  assert (Hq : ((500 * (i / 500)) / 500 = i / 500)%nat).
  { rewrite Nat.mul_comm. apply Nat.div_mul. lia. }
  rewrite Hq.
  remember (500 * (i / 500))%nat as d eqn:Ed.
  assert (Hd : (500 <= d)%nat).
  { destruct (i / 500)%nat eqn:Q0; lia. }
  destruct (Nat.ltb_spec i 500); [lia|]. destruct (Nat.ltb_spec d 500); [lia|].
  split; [reflexivity|].
  destruct (Follower.majority _); [left | right]; reflexivity.
Qed.

(** X9.  Whatever the simulation returns, Nuro is commanded to stand
    still for the first 500 steps, which sets all six intrinsic
    amplitudes to 0; from step 500 on its command is always one of the
    two turns [0.2, 1.4] and [1.4, 0.2], it changes only at multiples
    of 500, and the turning update keeps the baseline frequencies
    un-negated on it. *)
Theorem follower_stands_then_turns (Sim : Type)
    (sim_step : Sim -> list Q -> list Q -> list (list (list Q)) * Sim)
    (signals : list (list Q)) (obs : list (list (list Q))) (sim : Sim)
    (acts : list (list Q)) (hist : list (list (list (list Q))))
    (final : Follower.state) (i : nat) :
  Follower.follow_mcfly Sim sim_step signals obs sim = Ok (acts, hist, final) ->
  (i < length signals)%nat ->
  ((i < 500)%nat ->
   nth i acts [] = [0; 0]
   /\ forall base, exists freqs,
        HybridTurningFly.compute_intrinsic_overrides base (nth i acts [])
        = Ok (freqs, [0; 0; 0; 0; 0; 0]))
  /\ ((500 <= i)%nat ->
      (nth i acts [] = [0.2; 1.4] \/ nth i acts [] = [1.4; 0.2])
      /\ nth i acts [] = nth (500 * (i / 500)) acts []
      /\ forall base, exists amps,
           HybridTurningFly.compute_intrinsic_overrides base (nth i acts [])
           = Ok (base, amps)).
Proof.
  intros Hrun Hi.
  pose proof (fun k => follow_command_at Sim sim_step signals obs sim acts hist final k Hrun)
    as Hcmd.
  split.
  - intros Hlt. rewrite (Hcmd i Hi). unfold Follower.command_at.
    destruct (Nat.ltb_spec i 500); [|lia].
    split; [reflexivity|]. intros base. eexists.
    rewrite compute_intrinsic_overrides_eq. reflexivity.
  - intros Hge.
    pose proof (Nat.div_mod_eq i 500) as Hdm.
    destruct (command_at_block (Follower.is_left final) i Hge) as [Hblock Hturn].
    rewrite (Hcmd i Hi), (Hcmd (500 * (i / 500))%nat) by lia.
    split; [exact Hturn|]. split; [exact Hblock|].
    intros base.
    destruct Hturn as [-> | ->]; eexists;
      apply positive_steering_keeps_baseline; reflexivity.
Qed.

Lemma follower_stands_then_turns_witness :
  exists acts hist final,
    Follower.follow_mcfly nat FollowerExample.sim_step FollowerExample.signals
      Example.vision 0%nat = Ok (acts, hist, final)
    /\ (nth 700 acts [] = [0.2; 1.4] \/ nth 700 acts [] = [1.4; 0.2])
    /\ nth 700 acts [] = nth (500 * (700 / 500)) acts [].
Proof.
  destruct (Follower.follow_mcfly nat FollowerExample.sim_step FollowerExample.signals
              Example.vision 0%nat) as [[[acts hist] final]|e] eqn:E;
    [|vm_compute in E; discriminate].
  exists acts, hist, final. split; [reflexivity|].
  assert (Hi : (700 < length FollowerExample.signals)%nat) by (vm_compute; lia).
  destruct (proj2 (follower_stands_then_turns nat FollowerExample.sim_step
                     FollowerExample.signals Example.vision 0%nat acts hist final 700
                     E Hi)) as [H1 [H2 _]].
  - lia.
  - split; assumption.
Defined.

(** ** Kinematic replay: renaming the recorded joints *)

Section SeqikpyFacts.

Local Open Scope string_scope.

Lemma split_no_sep (sep : ascii) (s : string) :
  Seqikpy.has_char sep s = false -> Seqikpy.split sep s = [s].
Proof.
  induction s as [|c s IH]; simpl; [reflexivity|].
  intros H. apply orb_false_iff in H. destruct H as [Hc Hs].
  rewrite Hc, (IH Hs). reflexivity.
Qed.

Lemma split_first (sep : ascii) (s t : string) :
  Seqikpy.has_char sep s = false ->
  Seqikpy.split sep (s ++ String sep t) = s :: Seqikpy.split sep t.
Proof.
  induction s as [|c s IH]; simpl.
  - intros _. now rewrite Ascii.eqb_refl.
  - intros H. apply orb_false_iff in H. destruct H as [Hc Hs].
    rewrite Hc, (IH Hs). reflexivity.
Qed.

Lemma split_length (sep : ascii) (s : string) : (1 <= length (Seqikpy.split sep s))%nat.
Proof.
  induction s as [|c s IH]; simpl; [lia|].
  destruct (Ascii.eqb c sep); simpl; [lia|].
  destruct (Seqikpy.split sep s); simpl in *; lia.
Qed.

Lemma recorded_parts (prefix leg : string) (sep : ascii) (rest : string) :
  String.length prefix = 6%nat -> String.length leg = 2%nat ->
  Seqikpy.slice 6 8 (prefix ++ leg ++ String sep rest) = leg
  /\ Seqikpy.slice_from 9 (prefix ++ leg ++ String sep rest) = rest.
Proof.
  intros Hp Hl.
  destruct prefix as [|p1 [|p2 [|p3 [|p4 [|p5 [|p6 [|p7 prefix]]]]]]]; try discriminate.
  destruct leg as [|l1 [|l2 [|l3 leg]]]; try discriminate.
  split; reflexivity.
Qed.


Lemma append_empty_r (s : string) : s ++ "" = s.
Proof. induction s as [|c s IH]; simpl; [reflexivity | now rewrite IH]. Qed.

Lemma append_assoc (s t u : string) : (s ++ t) ++ u = s ++ t ++ u.
Proof. induction s as [|c s IH]; simpl; [reflexivity | now rewrite IH]. Qed.

Lemma newjoint_recorded_eq (corresp_dict : Seqikpy.dict string)
    (prefix leg : string) (sep : ascii) (seg dof segment : string) :
  String.length prefix = 6%nat ->
  String.length leg = 2%nat ->
  Seqikpy.has_char "_" seg = false ->
  Seqikpy.has_char "_" dof = false ->
  Seqikpy.dict_get corresp_dict seg = Some segment ->
  Seqikpy.newjoint corresp_dict (Seqikpy.recorded prefix leg sep seg dof)
  = Seqikpy.Done (Seqikpy.gym_name leg segment dof).
Proof.
  intros Hp Hl Hseg Hdof Hget.
  unfold Seqikpy.newjoint, Seqikpy.recorded, Seqikpy.gym_name.
  destruct (recorded_parts prefix leg sep (seg ++ "_" ++ dof) Hp Hl) as [-> ->].
  change (seg ++ "_" ++ dof) with (seg ++ String "_" dof).
  rewrite (split_first "_" seg dof Hseg), (split_no_sep "_" dof Hdof), Hget.
  destruct (String.eqb dof "pitch"); [|reflexivity].
  now rewrite append_empty_r.
Qed.

(** X10.  A recorded joint name made of any six characters, a leg of
    two characters, any one character, a segment and a degree of
    freedom (both free of [_]) is renamed to [joint_], the leg, the
    translation of the segment and, unless the degree of freedom is the
    pitch, [_] and the degree of freedom; the first six characters and
    the ninth are never looked at, so any other choice of them gives
    the same new name. *)
Theorem newjoint_recorded (corresp_dict : Seqikpy.dict string)
    (prefix leg : string) (sep : ascii) (seg dof segment : string) :
  String.length prefix = 6%nat ->
  String.length leg = 2%nat ->
  Seqikpy.has_char "_" seg = false ->
  Seqikpy.has_char "_" dof = false ->
  Seqikpy.dict_get corresp_dict seg = Some segment ->
  Seqikpy.newjoint corresp_dict (Seqikpy.recorded prefix leg sep seg dof)
  = Seqikpy.Done (Seqikpy.gym_name leg segment dof)
  /\ forall prefix' sep',
       String.length prefix' = 6%nat ->
       Seqikpy.newjoint corresp_dict (Seqikpy.recorded prefix' leg sep' seg dof)
       = Seqikpy.newjoint corresp_dict (Seqikpy.recorded prefix leg sep seg dof).
Proof.
  intros Hp Hl Hseg Hdof Hget.
  pose proof (newjoint_recorded_eq corresp_dict prefix leg sep seg dof segment
                Hp Hl Hseg Hdof Hget) as Hmain.
  split; [exact Hmain|].
  intros prefix' sep' Hp'. rewrite Hmain.
  now apply newjoint_recorded_eq.
Qed.

Lemma newjoint_recorded_witness :
  Seqikpy.newjoint Seqikpy.corresp_dict (Seqikpy.recorded "Angle_" "RF" "_" "ThC" "yaw")
  = Seqikpy.Done (Seqikpy.gym_name "RF" "Coxa" "yaw").
Proof.
  apply (proj1 (newjoint_recorded Seqikpy.corresp_dict "Angle_" "RF" "_" "ThC" "yaw" "Coxa"
                  eq_refl eq_refl eq_refl eq_refl eq_refl)).
Defined.

(** X11.  Renaming a joint fails in two ways: when the name from its
    tenth character on does not hold exactly one [_] the unpacking into
    segment and degree of freedom raises [ValueError] (so every name of
    at most nine characters is rejected), and when it does but the
    segment is not a key of the correspondence dictionary the lookup
    raises [KeyError] with that segment. *)
Theorem newjoint_failures (corresp_dict : Seqikpy.dict string) (joint : string) :
  (Seqikpy.has_char "_" (Seqikpy.slice_from 9 joint) = false ->
   Seqikpy.newjoint corresp_dict joint = Seqikpy.UnpackError 1)
  /\ ((String.length joint <= 9)%nat ->
      Seqikpy.newjoint corresp_dict joint = Seqikpy.UnpackError 1)
  /\ (forall a b c,
        Seqikpy.has_char "_" a = false ->
        Seqikpy.slice_from 9 joint = a ++ "_" ++ b ++ "_" ++ c ->
        exists n, (3 <= n)%nat
                  /\ Seqikpy.newjoint corresp_dict joint = Seqikpy.UnpackError n)
  /\ (forall seg dof,
        Seqikpy.has_char "_" seg = false ->
        Seqikpy.has_char "_" dof = false ->
        Seqikpy.slice_from 9 joint = seg ++ "_" ++ dof ->
        Seqikpy.dict_get corresp_dict seg = None ->
        Seqikpy.newjoint corresp_dict joint = Seqikpy.KeyError seg).
Proof.
  assert (Hnone : Seqikpy.has_char "_" (Seqikpy.slice_from 9 joint) = false ->
                  Seqikpy.newjoint corresp_dict joint = Seqikpy.UnpackError 1).
  { intros H. unfold Seqikpy.newjoint. now rewrite (split_no_sep _ _ H). }
  split; [exact Hnone|]. split; [|split].
  - intros Hlen. apply Hnone.
    assert (E : Seqikpy.slice_from 9 joint = "").
    { do 10 (destruct joint as [|? joint]; [reflexivity|]). simpl in Hlen. lia. }
    now rewrite E.
  - intros a b c Ha E. unfold Seqikpy.newjoint. rewrite E.
    change (a ++ "_" ++ b ++ "_" ++ c) with (a ++ String "_" (b ++ String "_" c)).
    rewrite (split_first "_" a _ Ha).
    pose proof (split_length "_" c) as Hc.
    assert (Hb : exists p ps, Seqikpy.split "_" (b ++ String "_" c) = p :: ps
                              /\ (1 <= length ps)%nat).
    { clear E. induction b as [|x b IH]; simpl.
      - destruct (Seqikpy.split "_" c) as [|q qs] eqn:Q; [simpl in Hc; lia|].
        exists "", (q :: qs). split; [reflexivity | simpl; lia].
      - destruct IH as [p [ps [-> Hps]]].
        destruct (Ascii.eqb x "_").
        + exists "", (p :: ps). split; [reflexivity | simpl; lia].
        + exists (String x p), ps. split; [reflexivity | exact Hps]. }
    destruct Hb as [p [ps [-> Hps]]].
    destruct ps as [|p2 ps]; [simpl in Hps; lia|].
    exists (S (S (S (length ps)))). split; [lia|]. reflexivity.
  - intros seg dof Hseg Hdof E Hget. unfold Seqikpy.newjoint. rewrite E.
    change (seg ++ "_" ++ dof) with (seg ++ String "_" dof).
    rewrite (split_first "_" seg dof Hseg), (split_no_sep "_" dof Hdof), Hget.
    now destruct (String.eqb dof "pitch").
Qed.

Lemma newjoint_failures_witness :
  Seqikpy.newjoint Seqikpy.corresp_dict "Angle_RF" = Seqikpy.UnpackError 1
  /\ Seqikpy.newjoint Seqikpy.corresp_dict "Angle_RF_Neck_yaw" = Seqikpy.KeyError "Neck".
Proof.
  split.
  - apply (proj1 (proj2 (newjoint_failures Seqikpy.corresp_dict "Angle_RF"))).
    simpl. lia.
  - apply (proj2 (proj2 (proj2 (newjoint_failures Seqikpy.corresp_dict
                                   "Angle_RF_Neck_yaw"))) "Neck" "yaw");
      reflexivity.
Defined.

Lemma eqb_neq_sym (a b : string) : String.eqb a b = false -> String.eqb b a = false.
Proof. rewrite !String.eqb_neq. congruence. Qed.

Lemma dict_get_set_same {V : Type} (d : Seqikpy.dict V) (k : string) (v : V) :
  Seqikpy.dict_get (Seqikpy.dict_set d k v) k = Some v.
Proof.
  induction d as [|[k' v'] d IH]; simpl.
  - now rewrite String.eqb_refl.
  - destruct (String.eqb k' k) eqn:E; simpl; rewrite E; [reflexivity | exact IH].
Qed.

Lemma dict_get_set_other {V : Type} (d : Seqikpy.dict V) (k k0 : string) (v : V) :
  k <> k0 -> Seqikpy.dict_get (Seqikpy.dict_set d k v) k0 = Seqikpy.dict_get d k0.
Proof.
  intros Hne. induction d as [|[k' v'] d IH]; simpl.
  - apply String.eqb_neq in Hne. now rewrite Hne.
  - destruct (String.eqb k' k) eqn:E; simpl.
    + apply String.eqb_eq in E. subst k'.
      apply String.eqb_neq in Hne. now rewrite Hne.
    + now rewrite IH.
Qed.

Lemma dict_get_absent {V : Type} (d : Seqikpy.dict V) (k : string) :
  ~ In k (map fst d) -> Seqikpy.dict_get d k = None.
Proof.
  induction d as [|[k' v'] d IH]; simpl; [reflexivity|].
  intros H. destruct (String.eqb k' k) eqn:E.
  - apply String.eqb_eq in E. exfalso. apply H. now left.
  - apply IH. intros Hin. apply H. now right.
Qed.

Lemma dict_set_fresh {V : Type} (d : Seqikpy.dict V) (k : string) (v : V) :
  ~ In k (map fst d) -> Seqikpy.dict_set d k v = (d ++ [(k, v)])%list.
Proof.
  induction d as [|[k' v'] d IH]; simpl; [reflexivity|].
  intros H. destruct (String.eqb k' k) eqn:E.
  - apply String.eqb_eq in E. exfalso. apply H. now left.
  - rewrite IH; [reflexivity|]. intros Hin. apply H. now right.
Qed.

Lemma dict_set_in {V : Type} (d : Seqikpy.dict V) (k k0 : string) (v v0 : V) :
  In (k0, v0) (Seqikpy.dict_set d k v) -> (k0 = k /\ v0 = v) \/ In (k0, v0) d.
Proof.
  induction d as [|[k' v'] d IH]; simpl.
  - intros [H | []]. injection H as <- <-. now left.
  - destruct (String.eqb k' k) eqn:E; simpl.
    + apply String.eqb_eq in E. subst k'.
      intros [H | H]; [injection H as <- <-; now left | right; now right].
    + intros [H | H]; [right; now left|].
      destruct (IH H) as [? | ?]; [now left | right; now right].
Qed.

Lemma dict_set_length {V : Type} (d : Seqikpy.dict V) (k : string) (v : V) :
  (length (Seqikpy.dict_set d k v) <= S (length d))%nat.
Proof.
  induction d as [|[k' v'] d IH]; simpl; [lia|].
  destruct (String.eqb k' k); simpl; lia.
Qed.

Lemma newjoint_done_joint (corresp_dict : Seqikpy.dict string) (joint name : string) :
  Seqikpy.newjoint corresp_dict joint = Seqikpy.Done name ->
  exists rest, name = "joint_" ++ rest.
Proof.
  unfold Seqikpy.newjoint.
  destruct (Seqikpy.split "_" (Seqikpy.slice_from 9 joint)) as [|seg [|dof [|x parts]]];
    try discriminate.
  destruct (String.eqb dof "pitch");
    destruct (Seqikpy.dict_get corresp_dict seg) as [segment|]; try discriminate;
    intros H; injection H as <-; eexists; reflexivity.
Qed.

Lemma renamed_step {V : Type} (corresp_dict : Seqikpy.dict string)
    (joint name : string) (values : V) (rest : list (string * V)) (acc : Seqikpy.dict V) :
  Seqikpy.renamed corresp_dict joint = Some name ->
  Seqikpy.format_items corresp_dict ((joint, values) :: rest) acc
  = Seqikpy.format_items corresp_dict rest (Seqikpy.dict_set acc name values).
Proof.
  unfold Seqikpy.renamed, Seqikpy.special. simpl.
  destruct (String.eqb joint "meta" || String.eqb joint "swing_stance_time").
  - intros H. now injection H as <-.
  - destruct (Seqikpy.newjoint corresp_dict joint); try discriminate.
    intros H. now injection H as <-.
Qed.

Lemma renamed_none_step {V : Type} (corresp_dict : Seqikpy.dict string)
    (joint : string) (values : V) (rest : list (string * V)) (acc : Seqikpy.dict V) :
  Seqikpy.renamed corresp_dict joint = None ->
  forall out, Seqikpy.format_items corresp_dict ((joint, values) :: rest) acc
              <> Seqikpy.Done out.
Proof.
  unfold Seqikpy.renamed, Seqikpy.special. simpl.
  destruct (String.eqb joint "meta" || String.eqb joint "swing_stance_time");
    [discriminate|].
  destruct (Seqikpy.newjoint corresp_dict joint); try discriminate;
    intros _ out H; discriminate.
Qed.

Lemma renamed_not_special_unless_kept (corresp_dict : Seqikpy.dict string)
    (joint name : string) :
  Seqikpy.renamed corresp_dict joint = Some name ->
  Seqikpy.special name = true -> name = joint.
Proof.
  unfold Seqikpy.renamed. destruct (Seqikpy.special joint) eqn:Es.
  - intros H _. now injection H as <-.
  - destruct (Seqikpy.newjoint corresp_dict joint) as [n| |] eqn:En; try discriminate.
    intros H. injection H as <-.
    destruct (newjoint_done_joint _ _ _ En) as [rest ->]. discriminate.
Qed.

(** X12.  The first item that cannot be renamed aborts the whole call
    with its own error, whatever follows it: nothing is returned for
    the items before it either. *)
Theorem format_aborts {V : Type} (corresp_dict : Seqikpy.dict string)
    (good rest : list (string * V)) (joint : string) (values : V) :
  Forall (fun item => Seqikpy.renamed corresp_dict (fst item) <> None) good ->
  Seqikpy.special joint = false ->
  (forall key, Seqikpy.newjoint corresp_dict joint = Seqikpy.KeyError key ->
     Seqikpy.format_seqikpy_data (good ++ (joint, values) :: rest)%list corresp_dict
     = Seqikpy.KeyError key)
  /\ (forall n, Seqikpy.newjoint corresp_dict joint = Seqikpy.UnpackError n ->
        Seqikpy.format_seqikpy_data (good ++ (joint, values) :: rest)%list corresp_dict
        = Seqikpy.UnpackError n).
Proof.
  intros Hgood Hsp. unfold Seqikpy.format_seqikpy_data.
  generalize (@nil (string * V)) as acc.
  induction Hgood as [|[k v] good Hk _ IH]; intros acc.
  - simpl. unfold Seqikpy.special in Hsp. rewrite Hsp.
    split; intros ? ->; reflexivity.
  - simpl in Hk. destruct (Seqikpy.renamed corresp_dict k) as [name|] eqn:E;
      [|congruence].
    cbn [app]. rewrite (renamed_step _ _ _ _ _ _ E). apply IH.
Qed.

Lemma format_aborts_witness :
  Seqikpy.format_seqikpy_data
    ([("meta", 0%nat); ("Angle_RF_ThC_yaw", 1%nat)]
     ++ ("Angle_RF_Neck_yaw", 2%nat) :: [("Angle_RF_ThC_pitch", 3%nat)])%list
    Seqikpy.corresp_dict
  = Seqikpy.KeyError "Neck".
Proof.
  apply (proj1 (format_aborts Seqikpy.corresp_dict
                  [("meta", 0%nat); ("Angle_RF_ThC_yaw", 1%nat)]
                  [("Angle_RF_ThC_pitch", 3%nat)] "Angle_RF_Neck_yaw" 2%nat
                  ltac:(repeat constructor; discriminate) eq_refl)).
  reflexivity.
Defined.

Lemma format_items_facts {V : Type} (corresp_dict : Seqikpy.dict string)
    (items : list (string * V)) :
  forall acc out,
    Seqikpy.format_items corresp_dict items acc = Seqikpy.Done out ->
    (length out <= length acc + length items)%nat
    /\ (forall k v, In (k, v) out ->
          In (k, v) acc
          \/ exists k0, In (k0, v) items /\ Seqikpy.renamed corresp_dict k0 = Some k)
    /\ (NoDup (map fst items) ->
        forall k, Seqikpy.special k = true ->
          Seqikpy.dict_get out k
          = match Seqikpy.dict_get items k with
            | Some v => Some v
            | None => Seqikpy.dict_get acc k
            end).
Proof.
  induction items as [|[joint values] items IH]; intros acc out Hrun.
  - simpl in Hrun. injection Hrun as <-. split; [lia|]. split; [now left|]. reflexivity.
  - destruct (Seqikpy.renamed corresp_dict joint) as [name|] eqn:E;
      [|now apply (renamed_none_step _ _ values items acc E) in Hrun].
    rewrite (renamed_step _ _ _ _ _ _ E) in Hrun.
    destruct (IH _ _ Hrun) as [Hlen [Hin Hget]].
    pose proof (dict_set_length acc name values) as Hl.
    split; [simpl; lia|]. split.
    + intros k v Hkv. destruct (Hin k v Hkv) as [H | [k0 [H0 H1]]].
      * apply dict_set_in in H. destruct H as [[-> ->] | H]; [|now left].
        right. exists joint. split; [now left | exact E].
      * right. exists k0. split; [now right | exact H1].
    + intros Hnd k Hk. inversion Hnd as [|? ? Hnotin Hnd']; subst.
      rewrite (Hget Hnd' k Hk). simpl.
      destruct (String.eqb joint k) eqn:Ejk.
      * apply String.eqb_eq in Ejk. subst k.
        rewrite (dict_get_absent items joint Hnotin).
        unfold Seqikpy.renamed in E. rewrite Hk in E. injection E as <-.
        apply dict_get_set_same.
      * destruct (Seqikpy.dict_get items k); [reflexivity|].
        apply dict_get_set_other. intros ->.
        apply String.eqb_neq in Ejk. apply Ejk. symmetry.
        now apply (renamed_not_special_unless_kept corresp_dict).
Qed.

(** X13.  When the call succeeds nothing is invented: the result has at
    most as many items as [data], every value in it is the value of an
    item of [data] stored under that item's new name, and (keys of
    [data] being distinct) the entries [meta] and [swing_stance_time]
    are exactly those of [data]. *)
Theorem format_preserves {V : Type} (corresp_dict : Seqikpy.dict string)
    (data out : Seqikpy.dict V) :
  Seqikpy.format_seqikpy_data data corresp_dict = Seqikpy.Done out ->
  (length out <= length data)%nat
  /\ (forall k v, In (k, v) out ->
        exists k0, In (k0, v) data /\ Seqikpy.renamed corresp_dict k0 = Some k)
  /\ (NoDup (map fst data) ->
      forall k, Seqikpy.special k = true ->
        Seqikpy.dict_get out k = Seqikpy.dict_get data k).
Proof.
  intros Hrun. destruct (format_items_facts corresp_dict data [] out Hrun)
    as [Hlen [Hin Hget]].
  split; [exact Hlen|]. split.
  - intros k v Hkv. destruct (Hin k v Hkv) as [[] | H]. exact H.
  - intros Hnd k Hk. rewrite (Hget Hnd k Hk).
    now destruct (Seqikpy.dict_get data k).
Qed.

Lemma format_preserves_witness :
  Seqikpy.dict_get SeqikpyExample.data_gym "meta"
  = Seqikpy.dict_get SeqikpyExample.data "meta".
Proof.
  apply (proj2 (proj2 (format_preserves Seqikpy.corresp_dict SeqikpyExample.data
                         SeqikpyExample.data_gym eq_refl))).
  - repeat constructor; simpl; intuition discriminate.
  - reflexivity.
Defined.

Lemma format_items_in_order {V : Type} (corresp_dict : Seqikpy.dict string)
    (items : list (string * V)) (names : list string) :
  Forall2 (fun item name => Seqikpy.renamed corresp_dict (fst item) = Some name)
    items names ->
  forall acc,
    NoDup names ->
    (forall n, In n names -> ~ In n (map fst acc)) ->
    Seqikpy.format_items corresp_dict items acc
    = Seqikpy.Done (acc ++ combine names (map snd items))%list.
Proof.
  induction 1 as [|[k v] name items names Hk _ IH]; intros acc Hnd Hfresh.
  - simpl. now rewrite app_nil_r.
  - simpl in Hk. rewrite (renamed_step _ _ _ _ _ _ Hk).
    inversion Hnd as [|? ? Hnotin Hnd']; subst.
    rewrite dict_set_fresh by (apply Hfresh; now left).
    rewrite IH; [| exact Hnd' |].
    + simpl. now rewrite <- app_assoc.
    + intros n Hn. rewrite map_app, in_app_iff. simpl.
      intros [Hin | [<- | []]]; [|contradiction].
      apply (Hfresh n); [now right | exact Hin].
Qed.

(** X14.  When the new names of the items are pairwise distinct the
    call succeeds and stores the values in the order of [data], each
    under its new name: nothing is overwritten and nothing is
    reordered. *)
Theorem format_in_order {V : Type} (corresp_dict : Seqikpy.dict string)
    (data : Seqikpy.dict V) (names : list string) :
  Forall2 (fun item name => Seqikpy.renamed corresp_dict (fst item) = Some name)
    data names ->
  NoDup names ->
  Seqikpy.format_seqikpy_data data corresp_dict
  = Seqikpy.Done (combine names (map snd data)).
Proof.
  intros Hnames Hnd. unfold Seqikpy.format_seqikpy_data.
  rewrite (format_items_in_order corresp_dict data names Hnames [] Hnd).
  - reflexivity.
  - intros n _ [].
Qed.

Lemma format_in_order_witness :
  Seqikpy.format_seqikpy_data SeqikpyExample.data Seqikpy.corresp_dict
  = Seqikpy.Done (combine (map fst SeqikpyExample.data_gym)
                    (map snd SeqikpyExample.data)).
Proof.
  apply (format_in_order Seqikpy.corresp_dict SeqikpyExample.data
           (map fst SeqikpyExample.data_gym)).
  - repeat constructor.
  - repeat constructor; simpl; intuition discriminate.
Defined.

Lemma default_keys (seg : string) :
  In seg (map fst Seqikpy.corresp_dict) ->
  (seg = "ThC" /\ Seqikpy.segment_of seg = "Coxa")
  \/ (seg = "CTr" /\ Seqikpy.segment_of seg = "Femur")
  \/ (seg = "FTi" /\ Seqikpy.segment_of seg = "Tibia")
  \/ (seg = "TiTa" /\ Seqikpy.segment_of seg = "Tarsus1").
Proof.
  simpl. intros [<- | [<- | [<- | [<- | []]]]]; auto 10.
Qed.

Lemma default_keys_clean (seg : string) :
  In seg (map fst Seqikpy.corresp_dict) ->
  Seqikpy.has_char "_" seg = false
  /\ Seqikpy.dict_get Seqikpy.corresp_dict seg = Some (Seqikpy.segment_of seg).
Proof.
  simpl. intros [<- | [<- | [<- | [<- | []]]]]; split; reflexivity.
Qed.

Lemma gym_name_injective (leg leg' seg seg' dof dof' : string) :
  String.length leg = 2%nat -> String.length leg' = 2%nat ->
  In seg (map fst Seqikpy.corresp_dict) -> In seg' (map fst Seqikpy.corresp_dict) ->
  Seqikpy.gym_name leg (Seqikpy.segment_of seg) dof
  = Seqikpy.gym_name leg' (Seqikpy.segment_of seg') dof' ->
  leg = leg' /\ seg = seg' /\ dof = dof'.
Proof.
  intros Hl Hl' Hs Hs'.
  destruct leg as [|l1 [|l2 [|l3 leg]]]; try discriminate.
  destruct leg' as [|m1 [|m2 [|m3 leg']]]; try discriminate.
  unfold Seqikpy.gym_name.
  destruct (String.eqb dof "pitch") eqn:Ed; destruct (String.eqb dof' "pitch") eqn:Ed';
    try apply String.eqb_eq in Ed; try apply String.eqb_eq in Ed'; subst;
    destruct (default_keys seg Hs) as [[-> ->] | [[-> ->] | [[-> ->] | [-> ->]]]];
    destruct (default_keys seg' Hs') as [[-> ->] | [[-> ->] | [[-> ->] | [-> ->]]]];
    simpl; intros H; try discriminate;
    injection H; intros; subst; repeat split; reflexivity.
Qed.

Lemma recorded_not_special (prefix leg : string) (sep : ascii) (seg dof : string) :
  String.length prefix = 6%nat -> String.length leg = 2%nat ->
  In seg (map fst Seqikpy.corresp_dict) ->
  Seqikpy.special (Seqikpy.recorded prefix leg sep seg dof) = false.
Proof.
  intros Hp Hl Hs.
  destruct prefix as [|p1 [|p2 [|p3 [|p4 [|p5 [|p6 [|p7 prefix]]]]]]]; try discriminate.
  destruct leg as [|l1 [|l2 [|l3 leg]]]; try discriminate.
  unfold Seqikpy.special, Seqikpy.recorded.
  apply orb_false_iff. split; apply String.eqb_neq; intros H.
  - discriminate.
  - destruct (default_keys seg Hs) as [[-> _] | [[-> _] | [[-> _] | [-> _]]]];
      simpl in H; discriminate.
Qed.

Lemma NoDup_map_transfer {A B C : Type} (f : A -> B) (g : A -> C) (l : list A) :
  (forall x y, In x l -> In y l -> g x = g y -> f x = f y) ->
  NoDup (map f l) -> NoDup (map g l).
Proof.
  induction l as [|a l IH]; simpl; intros Hinj Hnd; [constructor|].
  inversion Hnd as [|? ? Hnotin Hnd']; subst. constructor.
  - intros Hin. apply in_map_iff in Hin. destruct Hin as [y [Hy Hyl]].
    apply Hnotin. apply in_map_iff. exists y. split; [|exact Hyl].
    apply Hinj; auto.
  - apply IH; auto.
Qed.

(** X15.  With the default dictionary a recording whose joint names
    share their first six characters and their ninth, and are pairwise
    distinct, is renamed joint by joint: the call succeeds, keeps the
    order and the values, and no two joints collide on one new name. *)
Theorem format_recording {V : Type} (prefix : string) (sep : ascii)
    (rows : list (Seqikpy.row V)) :
  String.length prefix = 6%nat ->
  Forall Seqikpy.row_ok rows ->
  NoDup (map fst (map (Seqikpy.recorded_item prefix sep) rows)) ->
  Seqikpy.format_seqikpy_data (map (Seqikpy.recorded_item prefix sep) rows)
    Seqikpy.corresp_dict
  = Seqikpy.Done (map Seqikpy.gym_item rows)
  /\ NoDup (map fst (map Seqikpy.gym_item rows)).
Proof.
  intros Hp Hok Hnd.
  assert (Hnames : NoDup (map fst (map Seqikpy.gym_item rows))).
  { rewrite map_map in Hnd |- *.
    apply (NoDup_map_transfer (fun r => fst (Seqikpy.recorded_item prefix sep r))
             (fun r => fst (Seqikpy.gym_item r)) rows); [|exact Hnd].
    intros [[[leg seg] dof] v] [[[leg' seg'] dof'] v'] Hx Hy. simpl.
    rewrite Forall_forall in Hok.
    destruct (Hok _ Hx) as [Hl [Hs _]]. destruct (Hok _ Hy) as [Hl' [Hs' _]].
    intros H. apply gym_name_injective in H; try assumption.
    destruct H as [-> [-> ->]]. reflexivity. }
  split; [|exact Hnames].
  unfold Seqikpy.format_seqikpy_data.
  rewrite (format_items_in_order Seqikpy.corresp_dict _
             (map fst (map Seqikpy.gym_item rows)));
    [| |exact Hnames|intros n _ []].
  - cbn [app]. f_equal. clear. induction rows as [|[[[leg seg] dof] v] rows IH]; simpl;
      [reflexivity | now rewrite IH].
  - clear Hnd Hnames. induction Hok as [|[[[leg seg] dof] v] rows Hr _ IH]; simpl;
      constructor; [|exact IH].
    destruct Hr as [Hl [Hs Hd]]. simpl.
    destruct (default_keys_clean seg Hs) as [Hclean Hget].
    unfold Seqikpy.renamed.
    rewrite (recorded_not_special prefix leg sep seg dof Hp Hl Hs).
    now rewrite (newjoint_recorded_eq Seqikpy.corresp_dict prefix leg sep seg dof
                   (Seqikpy.segment_of seg) Hp Hl Hclean Hd Hget).
Qed.

Lemma format_recording_witness :
  Seqikpy.format_seqikpy_data
    (map (Seqikpy.recorded_item "Angle_" "_") SeqikpyExample.rows) Seqikpy.corresp_dict
  = Seqikpy.Done (map Seqikpy.gym_item SeqikpyExample.rows)
  /\ NoDup (map fst (map Seqikpy.gym_item SeqikpyExample.rows)).
Proof.
  apply (format_recording "Angle_" "_" SeqikpyExample.rows).
  - reflexivity.
  - repeat (apply Forall_cons; [repeat split; simpl; auto 10|]). apply Forall_nil.
  - repeat constructor; simpl; intuition discriminate.
Defined.

(** X16.  The function cannot be applied to its own result: with the
    default dictionary every renamed joint is rejected, a pitch joint
    by the unpacking ([ValueError]) and any other by the lookup of a
    segment that has lost its first letter ([KeyError]). *)
Theorem rename_twice_fails (leg seg dof : string) :
  String.length leg = 2%nat ->
  In seg (map fst Seqikpy.corresp_dict) ->
  Seqikpy.has_char "_" dof = false ->
  Seqikpy.newjoint Seqikpy.corresp_dict
    (Seqikpy.gym_name leg (Seqikpy.segment_of seg) dof)
  = if String.eqb dof "pitch"
    then Seqikpy.UnpackError 1
    else Seqikpy.KeyError (Seqikpy.slice_from 1 (Seqikpy.segment_of seg)).
Proof.
  intros Hl Hs Hd.
  destruct leg as [|l1 [|l2 [|l3 leg]]]; try discriminate.
  unfold Seqikpy.gym_name, Seqikpy.newjoint.
  destruct (String.eqb dof "pitch") eqn:Ed;
    destruct (default_keys seg Hs) as [[-> ->] | [[-> ->] | [[-> ->] | [-> ->]]]];
    try reflexivity.
  - change (Seqikpy.slice_from 9 ("joint_" ++ String l1 (String l2 "") ++ "Coxa" ++ "_" ++ dof))
      with ("oxa" ++ String "_" dof).
    rewrite (split_first "_" "oxa" dof eq_refl), (split_no_sep "_" dof Hd), Ed.
    reflexivity.
  - change (Seqikpy.slice_from 9 ("joint_" ++ String l1 (String l2 "") ++ "Femur" ++ "_" ++ dof))
      with ("emur" ++ String "_" dof).
    rewrite (split_first "_" "emur" dof eq_refl), (split_no_sep "_" dof Hd), Ed.
    reflexivity.
  - change (Seqikpy.slice_from 9 ("joint_" ++ String l1 (String l2 "") ++ "Tibia" ++ "_" ++ dof))
      with ("ibia" ++ String "_" dof).
    rewrite (split_first "_" "ibia" dof eq_refl), (split_no_sep "_" dof Hd), Ed.
    reflexivity.
  - change (Seqikpy.slice_from 9 ("joint_" ++ String l1 (String l2 "") ++ "Tarsus1" ++ "_" ++ dof))
      with ("arsus1" ++ String "_" dof).
    rewrite (split_first "_" "arsus1" dof eq_refl), (split_no_sep "_" dof Hd), Ed.
    reflexivity.
Qed.

Lemma rename_twice_fails_witness :
  Seqikpy.newjoint Seqikpy.corresp_dict
    (Seqikpy.gym_name "RF" (Seqikpy.segment_of "ThC") "yaw")
  = Seqikpy.KeyError "oxa".
Proof.
  apply (rename_twice_fails "RF" "ThC" "yaw"); [reflexivity | now left | reflexivity].
Defined.

End SeqikpyFacts.

(** ** Kinematic replay: the labels of the torque plot *)

Section TorquePlotFacts.

Local Open Scope string_scope.

Lemma starts_with_app (p s : string) : TorquePlot.starts_with p (p ++ s) = true.
Proof.
  induction p as [|a p IH]; simpl; [reflexivity|].
  now rewrite Ascii.eqb_refl, IH.
Qed.

Lemma replace_from_skip (old new p s : string) :
  TorquePlot.replace_from old new (String.length p) (p ++ s)
  = TorquePlot.replace_from old new 0 s.
Proof.
  induction p as [|a p IH]; simpl; [reflexivity | exact IH].
Qed.

Lemma no_joint_without_underscore (t s : string) :
  Seqikpy.has_char "_" s = false -> TorquePlot.starts_with ("joint_" ++ t) s = false.
Proof.
  intros H. cbn [append].
  do 5 (destruct s as [|? s]; [reflexivity|];
        simpl in H; apply orb_false_iff in H; destruct H as [_ H];
        cbn [TorquePlot.starts_with];
        match goal with
        | |- (?b && _)%bool = false => destruct b; [cbn [andb] | reflexivity]
        end).
  destruct s as [|c s]; [reflexivity|].
  simpl in H. apply orb_false_iff in H. destruct H as [Hc _].
  cbn [TorquePlot.starts_with]. now rewrite Hc.
Qed.

Lemma replace_without_underscore (t s : string) :
  Seqikpy.has_char "_" s = false ->
  TorquePlot.replace_from ("joint_" ++ t) "" 0 s = s.
Proof.
  induction s as [|c s IH]; [reflexivity|].
  intros H. cbn [TorquePlot.replace_from].
  rewrite (no_joint_without_underscore t _ H).
  simpl in H. apply orb_false_iff in H. destruct H as [_ H].
  now rewrite IH.
Qed.

Lemma contains_underscore (s : string) :
  TorquePlot.contains "_" s = Seqikpy.has_char "_" s.
Proof.
  induction s as [|c s IH]; [reflexivity|].
  cbn [TorquePlot.contains TorquePlot.starts_with Seqikpy.has_char].
  rewrite IH, andb_true_r. reflexivity.
Qed.

(** X17.  The label of the torque plot undoes the renaming of
    [format_seqikpy_data]: for a joint renamed with the default
    dictionary, of the focus leg, the label is the segment, [_] and the
    degree of freedom, the pitch that the renaming left out included. *)
Theorem label_restores_dof (leg seg dof : string) :
  String.length leg = 2%nat ->
  In seg (map fst Seqikpy.corresp_dict) ->
  Seqikpy.has_char "_" dof = false ->
  TorquePlot.label leg (Seqikpy.gym_name leg (Seqikpy.segment_of seg) dof)
  = Seqikpy.segment_of seg ++ "_" ++ dof.
Proof.
  intros Hl Hs Hd. unfold TorquePlot.label, TorquePlot.replace, Seqikpy.gym_name.
  set (old := "joint_" ++ leg).
  set (rest := Seqikpy.segment_of seg
               ++ (if String.eqb dof "pitch" then "" else "_" ++ dof)).
  assert (Hold : String.length old = 8%nat).
  { destruct leg as [|l1 [|l2 [|l3 leg]]]; try discriminate. reflexivity. }
  assert (Hsplit : "joint_" ++ leg ++ rest = old ++ rest).
  { unfold old. now rewrite append_assoc. }
  assert (Hrep : TorquePlot.replace_from old "" 0 ("joint_" ++ leg ++ rest)
                 = TorquePlot.replace_from old "" 0 rest).
  { rewrite Hsplit.
    destruct old as [|o old'] eqn:Eo; [discriminate|].
    cbn [TorquePlot.replace_from append].
    change (String o (old' ++ rest)) with (String o old' ++ rest).
    rewrite starts_with_app. cbn [append].
    replace (String.length (String o old') - 1)%nat with (String.length old')
      by (simpl; lia).
    apply replace_from_skip. }
  fold rest. rewrite Hrep.
  assert (Hrest : TorquePlot.replace_from old "" 0 rest = rest).
  { unfold rest, old.
    pose proof (replace_without_underscore leg dof Hd) as Hw. cbn [append] in Hw.
    destruct (String.eqb dof "pitch");
      destruct (default_keys seg Hs) as [[-> ->] | [[-> ->] | [[-> ->] | [-> ->]]]];
      cbn [TorquePlot.replace_from TorquePlot.starts_with append Ascii.eqb Bool.eqb andb];
      rewrite ?Hw; reflexivity. }
  rewrite Hrest, contains_underscore. unfold rest.
  destruct (String.eqb dof "pitch") eqn:Ed.
  - apply String.eqb_eq in Ed. subst dof.
    destruct (default_keys seg Hs) as [[-> ->] | [[-> ->] | [[-> ->] | [-> ->]]]];
      reflexivity.
  - destruct (default_keys seg Hs) as [[-> ->] | [[-> ->] | [[-> ->] | [-> ->]]]];
      cbn [Seqikpy.has_char append Ascii.eqb Bool.eqb orb negb]; reflexivity.
Qed.

Lemma label_restores_dof_witness :
  TorquePlot.label "LH" (Seqikpy.gym_name "LH" (Seqikpy.segment_of "TiTa") "pitch")
  = Seqikpy.segment_of "TiTa" ++ "_" ++ "pitch".
Proof.
  apply (label_restores_dof "LH" "TiTa" "pitch"); [reflexivity | | reflexivity].
  simpl. auto 10.
Defined.

End TorquePlotFacts.
